(** * fsesm: the glob finder [find] (output/find.js)

    A shallow embedding of [find] and of its inner functions [walk],
    [isIgnored], [globToRegex] and [loadGitignore], together with the part
    of the JavaScript runtime they rely on: string replacement, the regular
    expressions that [globToRegex] builds, and Node's [path] module on the
    paths the walker forms.

    Strings are sequences of code units, written [list ascii] (the code
    units below 256). *)

From Stdlib Require Import String Ascii List ZArith Lia Bool Arith Permutation.
Import ListNotations.

(* ================================================================== *)
(** * Part I: definitions *)
(* ================================================================== *)

Definition str := list ascii.

(** A literal of the source, as a sequence of code units. *)
Definition lit (s : string) : str := list_ascii_of_string s.

Definition backslash : ascii := "092"%char.
Definition newline : ascii := "010"%char.
Definition carriage_return : ascii := "013"%char.
Definition slash : ascii := "/"%char.

Definition str_eqb (a b : str) : bool :=
  if list_eq_dec ascii_dec a b then true else false.

(** ** JavaScript string methods used by the finder *)
Module JsString.

(** [s.replace(/c/g, f(c))] for a pattern that matches single characters:
    every character is rewritten on its own. *)
Definition replace_each (f : ascii -> str) (s : str) : str := flat_map f s.

(** [s.startsWith(p)]. *)
Fixpoint startsWith (p s : str) : bool :=
  match p, s with
  | [], _ => true
  | _ :: _, [] => false
  | a :: p', b :: s' => Ascii.eqb a b && startsWith p' s'
  end.

(** [s.split(c)] for a one-character separator: the pieces between the
    occurrences of [c] (always at least one piece). *)
Fixpoint split (c : ascii) (s : str) : list str :=
  match s with
  | [] => [[]]
  | x :: s' =>
      if Ascii.eqb x c then [] :: split c s'
      else match split c s' with
           | [] => [[x]]
           | w :: ws => (x :: w) :: ws
           end
  end.

(** [pieces.join(sep)]. *)
Fixpoint join (sep : str) (pieces : list str) : str :=
  match pieces with
  | [] => []
  | [w] => w
  | w :: ws => w ++ sep ++ join sep ws
  end.

(** White space and line terminators removed by [trim], among the code
    units below 256. *)
Definition is_space (c : ascii) : bool :=
  existsb (Nat.eqb (nat_of_ascii c)) [9; 10; 11; 12; 13; 32; 160]%nat.

Fixpoint trimStart (s : str) : str :=
  match s with
  | [] => []
  | x :: s' => if is_space x then trimStart s' else s
  end.

Definition trim (s : str) : str := rev (trimStart (rev (trimStart s))).

(** [s.substring(1)]. *)
Definition substring1 (s : str) : str := tl s.

End JsString.

(** ** The regular expressions [globToRegex] can build

    [new RegExp(source)] is modelled by a parser for the fragment of the
    pattern syntax made of literal characters, identity escapes, [.],
    character classes of plain characters, the assertions [^] and [$],
    non-capturing groups and the greedy quantifiers [*], [+] and [?].  A
    source outside the fragment is refused, like a source with a syntax
    error. *)
Module RegExp.

Inductive re :=
| REmpty
| RChar (c : ascii)
| RDot
| RClass (negated : bool) (cs : list ascii)
| RBol
| REol
| RStar (r : re)
| RPlus (r : re)
| ROpt (r : re)
| RSeq (r1 r2 : re).

Definition syntax_chars : str := lit "^$.*+?()[]{}|" ++ [backslash].

Definition is_syntax_char (c : ascii) : bool :=
  existsb (Ascii.eqb c) syntax_chars.

(** The characters of a class up to its closing bracket; escapes and
    ranges inside a class are outside the fragment. *)
Fixpoint parse_class (s : str) : option (list ascii * str) :=
  match s with
  | [] => None
  | c :: s' =>
      if Ascii.eqb c "]" then Some ([], s')
      else if Ascii.eqb c backslash || Ascii.eqb c "-" then None
      else match parse_class s' with
           | Some (cs, rest) => Some (c :: cs, rest)
           | None => None
           end
  end.

(** An optional greedy quantifier after an atom; lazy quantifiers are
    outside the fragment. *)
Definition parse_quantifier (atom : re) (s : str) : option (re * str) :=
  let not_lazy (q : re) (rest : str) :=
    match rest with
    | c :: _ => if Ascii.eqb c "?" then None else Some (q, rest)
    | [] => Some (q, rest)
    end in
  match s with
  | c :: rest =>
      if Ascii.eqb c "*" then not_lazy (RStar atom) rest
      else if Ascii.eqb c "+" then not_lazy (RPlus atom) rest
      else if Ascii.eqb c "?" then not_lazy (ROpt atom) rest
      else Some (atom, s)
  | [] => Some (atom, s)
  end.

(** One term starting with the character [c]; [body] parses the inside of
    a group. *)
Definition parse_term (body : str -> option (re * str)) (c : ascii) (s : str)
  : option (re * str) :=
  if Ascii.eqb c "^" then Some (RBol, s)
  else if Ascii.eqb c "$" then Some (REol, s)
  else if Ascii.eqb c "." then parse_quantifier RDot s
  else if Ascii.eqb c backslash then
    match s with
    | x :: s' =>
        if is_syntax_char x || Ascii.eqb x slash
        then parse_quantifier (RChar x) s' else None
    | [] => None
    end
  else if Ascii.eqb c "[" then
    match s with
    | x :: s' =>
        if Ascii.eqb x "^" then
          match parse_class s' with
          | Some (cs, rest) => parse_quantifier (RClass true cs) rest
          | None => None
          end
        else
          match parse_class s with
          | Some (cs, rest) => parse_quantifier (RClass false cs) rest
          | None => None
          end
    | [] => None
    end
  else if Ascii.eqb c "(" then
    match s with
    | q :: colon :: s' =>
        if Ascii.eqb q "?" && Ascii.eqb colon ":" then
          match body s' with
          | Some (r, close :: rest) =>
              if Ascii.eqb close ")" then parse_quantifier r rest else None
          | _ => None
          end
        else None
    | _ => None
    end
  else if is_syntax_char c then None
  else parse_quantifier (RChar c) s.

(** A sequence of terms, up to the end of the source or to a closing
    parenthesis, which is left in the input. *)
Fixpoint parse_alternative (fuel : nat) (s : str) : option (re * str) :=
  match fuel with
  | O => None
  | S fuel' =>
      match s with
      | [] => Some (REmpty, [])
      | c :: s1 =>
          if Ascii.eqb c ")" then Some (REmpty, s)
          else
            match parse_term (parse_alternative fuel') c s1 with
            | Some (t, s2) =>
                match parse_alternative fuel' s2 with
                | Some (r, s3) => Some (RSeq t r, s3)
                | None => None
                end
            | None => None
            end
      end
  end.

(** [new RegExp(source)]: [None] stands for the exception. *)
Definition compile (source : str) : option re :=
  match parse_alternative (S (length source)) source with
  | Some (r, []) => Some r
  | _ => None
  end.

(** Line terminators, which [.] does not match (no [s] flag). *)
Definition is_line_terminator (c : ascii) : bool :=
  Ascii.eqb c newline || Ascii.eqb c carriage_return.

Definition Continuation := nat -> str -> bool.

(** Greedy repetition of the matcher [mr] at most [n] more times; an
    iteration that consumes nothing is rejected. *)
Fixpoint repeat_matcher (mr : nat -> str -> Continuation -> bool)
         (k : Continuation) (n : nat) (i : nat) (s : str) : bool :=
  match n with
  | O => k i s
  | S n' =>
      mr i s (fun i' s' => negb (Nat.eqb i' i) && repeat_matcher mr k n' i' s')
      || k i s
  end.

(** The backtracking matcher: [matcher r i s k] tries [r] at index [i],
    where [s] is the rest of the input, and hands the end position to the
    continuation [k]. *)
Fixpoint matcher (r : re) (i : nat) (s : str) (k : Continuation) : bool :=
  match r with
  | REmpty => k i s
  | RChar c =>
      match s with
      | x :: s' => Ascii.eqb x c && k (S i) s'
      | [] => false
      end
  | RDot =>
      match s with
      | x :: s' => negb (is_line_terminator x) && k (S i) s'
      | [] => false
      end
  | RClass negated cs =>
      match s with
      | x :: s' => xorb negated (existsb (Ascii.eqb x) cs) && k (S i) s'
      | [] => false
      end
  | RBol => Nat.eqb i 0 && k i s
  | REol => match s with [] => k i s | _ :: _ => false end
  | RStar r1 => repeat_matcher (matcher r1) k (length s) i s
  | RPlus r1 =>
      matcher r1 i s
        (fun i' s' => repeat_matcher (matcher r1) k (length s') i' s')
  | ROpt r1 =>
      matcher r1 i s (fun i' s' => negb (Nat.eqb i' i) && k i' s') || k i s
  | RSeq r1 r2 => matcher r1 i s (fun i' s' => matcher r2 i' s' k)
  end.

(** The search of [test] without the sticky and global flags: a match
    may start at any index. *)
Fixpoint search (r : re) (i : nat) (s : str) : bool :=
  matcher r i s (fun _ _ => true)
  || match s with
     | [] => false
     | _ :: s' => search r (S i) s'
     end.

(** [regex.test(input)]. *)
Definition test (r : re) (input : str) : bool := search r 0 input.

End RegExp.

(** ** [globToRegex] *)

(** The characters of the class [[.+^${}()|[\]\\]]. *)
Definition escaped_chars : str := lit ".+^${}()|[]" ++ [backslash].

Definition is_escaped_char (c : ascii) : bool :=
  existsb (Ascii.eqb c) escaped_chars.

(** [.replace(/[.+^${}()|[\]\\]/g, "\\$&")] *)
Definition escape_metachars : str -> str :=
  JsString.replace_each
    (fun c => if is_escaped_char c then [backslash; c] else [c]).

(** [.replace(/\?/g, "[^/]")] *)
Definition replace_question : str -> str :=
  JsString.replace_each
    (fun c => if Ascii.eqb c "?" then lit "[^/]" else [c]).

(** [.replace(/\*\*\//g, "(?:.+/)?")]: the occurrences are found from left
    to right and do not overlap. *)
Fixpoint replace_globstar (s : str) : str :=
  match s with
  | [] => []
  | c :: s1 =>
      match s1 with
      | c2 :: c3 :: s3 =>
          if Ascii.eqb c "*" && Ascii.eqb c2 "*" && Ascii.eqb c3 slash
          then lit "(?:.+/)?" ++ replace_globstar s3
          else c :: replace_globstar s1
      | _ => c :: replace_globstar s1
      end
  end.

(** [.replace(/\*/g, "[^/]*")] *)
Definition replace_star : str -> str :=
  JsString.replace_each
    (fun c => if Ascii.eqb c "*" then lit "[^/]*" else [c]).

(** The source handed to [new RegExp]. *)
Definition globToRegex_source (pattern : str) : str :=
  let escaped :=
    replace_star (replace_globstar (replace_question (escape_metachars pattern))) in
  lit "^" ++ escaped ++ lit "$".

Definition globToRegex (pattern : str) : option RegExp.re :=
  RegExp.compile (globToRegex_source pattern).

(** ** Node's [path] module, on the paths the walker forms

    The walker only joins the name of a directory entry to the directory it
    is reading, and takes the result relative to the base directory.  A path
    below the base directory is kept as the list of the names that lead to
    it; [relative] renders it with the separator of the platform. *)
Module Path.

Inductive platform := Posix | Win32.

(** [path.sep] *)
Definition sep (pf : platform) : ascii :=
  match pf with
  | Posix => slash
  | Win32 => backslash
  end.

(** [path.join(dirPath, name)] for the name of a directory entry. *)
Definition join (dirPath : list str) (name : str) : list str :=
  dirPath ++ [name].

(** [path.relative(baseDir, fullPath)] for a path below [baseDir]. *)
Definition relative (pf : platform) (fullPath : list str) : str :=
  JsString.join [sep pf] fullPath.

(** [path.resolve(baseDir, relPath)] for a resolved [baseDir] and a
    relative path without [.] and [..] segments: an empty relative path
    is skipped, and a root directory already ends with the separator. *)
Definition resolve (pf : platform) (baseDir relPath : str) : str :=
  match relPath with
  | [] => baseDir
  | _ :: _ =>
      match rev baseDir with
      | c :: _ => if Ascii.eqb c (sep pf) then baseDir ++ relPath
                  else baseDir ++ [sep pf] ++ relPath
      | [] => baseDir ++ [sep pf] ++ relPath
      end
  end.

(** The loop of [path.extname] on a single path component, from its last
    character to its first one: [i] is the number of characters still to
    read, [startDot] the index of the last dot and [preDotState] is 0
    before any character left of that dot was seen, 1 after a dot and -1
    after another character. *)
Fixpoint extname_scan (reversed : str) (i : nat) (startDot : option nat)
         (preDotState : Z) : option nat * Z :=
  match reversed, i with
  | code :: before, S i' =>
      if Ascii.eqb code "." then
        match startDot with
        | None => extname_scan before i' (Some i') preDotState
        | Some _ => extname_scan before i' startDot 1%Z
        end
      else
        match startDot with
        | None => extname_scan before i' startDot preDotState
        | Some _ => extname_scan before i' startDot (-1)%Z
        end
  | _, _ => (startDot, preDotState)
  end.

(** [path.extname(name)] for the name of a directory entry. *)
Definition extname (name : str) : str :=
  let end_ := length name in
  match extname_scan (rev name) end_ None 0%Z with
  | (None, _) => []
  | (Some startDot, preDotState) =>
      if (preDotState =? 0)%Z
         || ((preDotState =? 1)%Z && Nat.eqb startDot (end_ - 1)
             && Nat.eqb startDot 1)
      then []
      else skipn startDot name
  end.

End Path.

(** ** The file system seen by the walker *)

(** What a directory entry says about itself: [isFile()], [isDirectory()],
    or neither (symbolic link, socket, FIFO, device). *)
Inductive dirent_type := DT_File | DT_Dir | DT_Other.

(** An entry of the tree: its type, and what [opendir] gives on its path,
    the entries with their names or [None] when it throws (not a directory,
    permission denied, vanished).  A symbolic link to a directory is a
    [DT_Other] node that could be opened.  Once a directory is open, the
    iteration over its entries is taken not to fail. *)
#[local] Unset Elimination Schemes.
Inductive node := Node (t : dirent_type) (listing : option (list (str * node))).
#[local] Set Elimination Schemes.

Definition dirent_type_of (n : node) : dirent_type :=
  match n with Node t _ => t end.

Definition listing_of (n : node) : option (list (str * node)) :=
  match n with Node _ l => l end.

(** The world of one call: what [opendir(baseDir)] gives and what
    [readFile] gives on the [.gitignore] of the base directory ([None] when
    it throws). *)
Record world := {
  root : option (list (str * node));
  gitignore : option str
}.

(** ** Options *)

(** [maxDepth]: a number or [Infinity]. *)
Inductive limit := Infinity | Finite (m : Z).

Inductive entry_kind := Files | Folders | All.

(** [string | string[]] *)
Inductive one_or_many := One (s : str) | Many (l : list str).

(** [Array.isArray(x) ? x : [x]] *)
Definition to_array (x : one_or_many) : list str :=
  match x with
  | One s => [s]
  | Many l => l
  end.

(** [cwd] is given resolved: [baseDir = path.resolve(cwd) = cwd]. *)
Record GlobOptions := {
  cwd : str;
  maxDepth : limit;
  ignore : one_or_many;
  matchFilesWithoutExtensions : bool;
  absolute : bool;
  useGitignore : bool;
  type : entry_kind
}.

Definition defaults (cwd : str) : GlobOptions := {|
  cwd := cwd;
  maxDepth := Infinity;
  ignore := Many [];
  matchFilesWithoutExtensions := true;
  absolute := false;
  useGitignore := false;
  type := Files
|}.

Definition with_maxDepth (m : limit) (o : GlobOptions) : GlobOptions := {|
  cwd := cwd o; maxDepth := m; ignore := ignore o;
  matchFilesWithoutExtensions := matchFilesWithoutExtensions o;
  absolute := absolute o; useGitignore := useGitignore o; type := type o
|}.

Definition with_ignore (l : list str) (o : GlobOptions) : GlobOptions := {|
  cwd := cwd o; maxDepth := maxDepth o; ignore := Many l;
  matchFilesWithoutExtensions := matchFilesWithoutExtensions o;
  absolute := absolute o; useGitignore := useGitignore o; type := type o
|}.

Definition with_matchFilesWithoutExtensions (b : bool) (o : GlobOptions)
  : GlobOptions := {|
  cwd := cwd o; maxDepth := maxDepth o; ignore := ignore o;
  matchFilesWithoutExtensions := b;
  absolute := absolute o; useGitignore := useGitignore o; type := type o
|}.

Definition with_type (k : entry_kind) (o : GlobOptions) : GlobOptions := {|
  cwd := cwd o; maxDepth := maxDepth o; ignore := ignore o;
  matchFilesWithoutExtensions := matchFilesWithoutExtensions o;
  absolute := absolute o; useGitignore := useGitignore o; type := k
|}.

(** [currentDepth > maxDepth] *)
Definition depth_gt (currentDepth : Z) (l : limit) : bool :=
  match l with
  | Infinity => false
  | Finite m => (m <? currentDepth)%Z
  end.

(** [currentDepth < maxDepth] *)
Definition depth_lt (currentDepth : Z) (l : limit) : bool :=
  match l with
  | Infinity => true
  | Finite m => (currentDepth <? m)%Z
  end.

(** ** Effects: the result array, exceptions, and a trace

    A computation threads the [results] array and may throw.  The trace
    records what the walker does to the file system and to the console: the
    directories it tries to open, the entries the directory iterator hands
    to it, and the errors it logs. *)

Inductive error := SyntaxError | OpendirError | ReadFileError.

Inductive event :=
| EvOpendir (dirPath : list str) (currentDepth : Z)
| EvDirent (fullPath : list str) (t : dirent_type) (currentDepth : Z)
| EvError (dirPath : list str).

Record state := {
  results : list str;
  trace : list event
}.

Definition M (A : Type) : Type := state -> (error + A) * state.

Definition ret {A} (a : A) : M A := fun st => (inr a, st).

Definition bind {A B} (c : M A) (f : A -> M B) : M B :=
  fun st =>
    match c st with
    | (inl e, st') => (inl e, st')
    | (inr a, st') => f a st'
    end.

Definition throw {A} (e : error) : M A := fun st => (inl e, st).

(** [try { body } catch (err) { handler }] *)
Definition try_catch {A} (body : M A) (handler : error -> M A) : M A :=
  fun st =>
    match body st with
    | (inl e, st') => handler e st'
    | (inr a, st') => (inr a, st')
    end.

(** [results.push(p)] *)
Definition push (p : str) : M unit :=
  fun st => (inr tt, {| results := results st ++ [p]; trace := trace st |}).

Definition emit (ev : event) : M unit :=
  fun st => (inr tt, {| results := results st; trace := trace st ++ [ev] |}).

Definition get_results : M (list str) := fun st => (inr (results st), st).

Declare Scope monad_scope.
Delimit Scope monad_scope with monad.
Notation "x <- c ;; k" := (bind c (fun x => k))
  (at level 61, c at next level, right associativity) : monad_scope.
Notation "c ;; k" := (bind c (fun _ => k))
  (at level 61, right associativity) : monad_scope.
Local Open Scope monad_scope.

(** [await Promise.all(promises)]: every sub-walk runs to its end; the
    first rejection, if any, is the rejection of the whole.  In the code a
    sub-walk starts when its entry is read and the sub-walks of one directory
    interleave; here they run one after the other once the directory is
    listed.  The results and the events are those of the code as multisets,
    not in their order: what is stated about them is to be read up to
    order. *)
Fixpoint promise_all (promises : list (M unit)) : M unit :=
  match promises with
  | [] => ret tt
  | p :: ps =>
      fun st =>
        match p st with
        | (inl e, st') => (inl e, snd (promise_all ps st'))
        | (inr _, st') => promise_all ps st'
        end
  end.

Definition some (matchers : list RegExp.re) (relPathUnix : str) : bool :=
  existsb (fun matcher => RegExp.test matcher relPathUnix) matchers.

(** ** [isIgnored] and [walk]: the closures of one call *)
Section Closures.

Variable pf : Path.platform.
Variable baseDir : str.
Variable options : GlobOptions.
Variables matchers ignoreMatchers ignoreNegMatchers : list RegExp.re.

Definition isIgnored (relPathUnix : str) : bool :=
  if some ignoreNegMatchers relPathUnix then false
  else if some ignoreMatchers relPathUnix then true
  else false.

(** [relPath.split(path.sep).join('/')] *)
Definition to_unix (relPath : str) : str :=
  JsString.join [slash] (JsString.split (Path.sep pf) relPath).

(** [absolute ? path.resolve(baseDir, relPath) : relPath] *)
Definition pushed_path (relPath : str) : str :=
  if absolute options then Path.resolve pf baseDir relPath else relPath.

Definition collect (relPath relPathUnix : str) : M unit :=
  if some matchers relPathUnix then push (pushed_path relPath) else ret tt.

(** The body of the loop over the entries of [dirPath]; [sub_walk] is the
    call [walk(fullPath, currentDepth + 1)].  The result is what the
    iteration adds to [promises]. *)
Definition visit (dirPath : list str) (currentDepth : Z) (name : str)
           (t : dirent_type) (sub_walk : M unit) : M (list (M unit)) :=
  let fullPath := Path.join dirPath name in
  let relPath := Path.relative pf fullPath in
  let relPathUnix := to_unix relPath in
  emit (EvDirent fullPath t currentDepth);;
  if isIgnored relPathUnix then ret []
  else
    match t with
    | DT_Dir =>
        (match type options with
         | Folders | All => collect relPath relPathUnix
         | Files => ret tt
         end);;
        if depth_lt currentDepth (maxDepth options)
        then ret [sub_walk] else ret []
    | DT_File =>
        match type options with
        | Files | All =>
            if negb (matchFilesWithoutExtensions options)
               && str_eqb (Path.extname name) []
            then ret []
            else collect relPath relPathUnix;; ret []
        | Folders => ret []
        end
    | DT_Other => ret []
    end.

(** [walk(dirPath, currentDepth)], on the node found at [dirPath]. *)
Fixpoint walk_node (n : node) (dirPath : list str) (currentDepth : Z) : M unit :=
  if depth_gt currentDepth (maxDepth options) then ret tt
  else
    try_catch
      (emit (EvOpendir dirPath currentDepth);;
       match n with
       | Node _ None => throw OpendirError
       | Node _ (Some dir) =>
           promises <-
             (fix for_await (entries : list (str * node)) : M (list (M unit)) :=
                match entries with
                | [] => ret []
                | (name, child) :: rest =>
                    ps <- visit dirPath currentDepth name (dirent_type_of child)
                            (walk_node child (Path.join dirPath name)
                                       (currentDepth + 1)%Z);;
                    qs <- for_await rest;;
                    ret (ps ++ qs)
                end) dir;;
           promise_all promises
       end)
      (fun _ => emit (EvError dirPath)).

Definition walk (listing : option (list (str * node))) (dirPath : list str)
           (currentDepth : Z) : M unit :=
  walk_node (Node DT_Dir listing) dirPath currentDepth.

End Closures.

(** ** [loadGitignore] and [find] *)

(** [content.split('\n').map(trim).filter(line => line && !line.startsWith('#'))],
    and the empty list when [readFile] throws. *)
Definition loadGitignore (w : world) : M (list str) :=
  try_catch
    (match gitignore w with
     | None => throw ReadFileError
     | Some content =>
         ret (filter
                (fun line => negb (str_eqb line [])
                             && negb (JsString.startsWith (lit "#") line))
                (map JsString.trim (JsString.split newline content)))
     end)
    (fun _ => ret []).

(** [p.replace(/\\/g, '/')] *)
Definition normalize_slashes : str -> str :=
  JsString.replace_each
    (fun c => if Ascii.eqb c backslash then [slash] else [c]).

(** [globToRegex] as a step of [find]: a syntax error is thrown. *)
Definition globToRegexM (pattern : str) : M RegExp.re :=
  match globToRegex pattern with
  | Some r => ret r
  | None => throw SyntaxError
  end.

Fixpoint mapM {A B} (f : A -> M B) (l : list A) : M (list B) :=
  match l with
  | [] => ret []
  | a :: l' => b <- f a;; bs <- mapM f l';; ret (b :: bs)
  end.

(** The loop that sorts the ignore patterns: the result is
    [(ignoreMatchers, ignoreNegMatchers)]. *)
Fixpoint classify_ignores (ignoreList : list str)
  : M (list RegExp.re * list RegExp.re) :=
  match ignoreList with
  | [] => ret ([], [])
  | ign :: rest =>
      let normIgn := normalize_slashes ign in
      if JsString.startsWith (lit "!") normIgn then
        r <- globToRegexM (JsString.substring1 normIgn);;
        ms <- classify_ignores rest;;
        ret (fst ms, r :: snd ms)
      else
        r <- globToRegexM normIgn;;
        ms <- classify_ignores rest;;
        ret (r :: fst ms, snd ms)
  end.

Definition find_body (pf : Path.platform) (w : world) (patterns : one_or_many)
           (options : GlobOptions) : M (list str) :=
  let baseDir := cwd options in
  let patternList := to_array patterns in
  let normalizedPatterns := map normalize_slashes patternList in
  matchers <- mapM globToRegexM normalizedPatterns;;
  gitignorePatterns <- (if useGitignore options then loadGitignore w else ret []);;
  let ignoreList := to_array (ignore options) ++ gitignorePatterns in
  ms <- classify_ignores ignoreList;;
  walk pf baseDir options matchers (fst ms) (snd ms) (root w) [] 0%Z;;
  get_results.

(** The promise returned by [find], once settled. *)
Inductive outcome := Resolved (paths : list str) | Rejected (e : error).

Definition initial : state := {| results := []; trace := [] |}.

Definition find (pf : Path.platform) (w : world) (patterns : one_or_many)
           (options : GlobOptions) : outcome :=
  match fst (find_body pf w patterns options initial) with
  | inr paths => Resolved paths
  | inl e => Rejected e
  end.

(** What the call did to the file system and to the console. *)
Definition find_trace (pf : Path.platform) (w : world) (patterns : one_or_many)
           (options : GlobOptions) : list event :=
  trace (snd (find_body pf w patterns options initial)).

(** ** The glob semantics of the specification (section 4.1)

    Written from the words of the specification, to be compared with
    [globToRegex]: a pattern is read from left to right as a sequence of
    tokens, and a path matches when it splits into consecutive pieces, one
    per token. *)
Module GlobSpec.

Inductive token :=
| Literal (c : ascii)   (* any other character, taken literally *)
| AnyChar               (* [?] *)
| Segments              (* a star, a star and a slash *)
| Star.                 (* a remaining [*] *)

Fixpoint tokens (pattern : str) : list token :=
  match pattern with
  | [] => []
  | c :: p1 =>
      if Ascii.eqb c "?" then AnyChar :: tokens p1
      else if Ascii.eqb c "*" then
        match p1 with
        | c2 :: c3 :: p3 =>
            if Ascii.eqb c2 "*" && Ascii.eqb c3 slash
            then Segments :: tokens p3
            else Star :: tokens p1
        | _ => Star :: tokens p1
        end
      else Literal c :: tokens p1
  end.

(** The piece of the path a token stands for.  [run_char] tells which
    characters the run of a [Segments] token may contain: any character,
    for the specification. *)
Definition consumes (run_char : ascii -> bool) (t : token) (piece : str) : Prop :=
  match t with
  | Literal c => piece = [c]
  | AnyChar => exists x, piece = [x] /\ x <> slash
  | Star => Forall (fun x => x <> slash) piece
  | Segments =>
      piece = [] \/
      exists run, piece = run ++ [slash] /\ run <> [] /\
                  forallb run_char run = true
  end.

Fixpoint matches (run_char : ascii -> bool) (ts : list token) (p : str) : Prop :=
  match ts with
  | [] => p = []
  | t :: ts' =>
      exists piece rest,
        p = piece ++ rest /\ consumes run_char t piece /\
        matches run_char ts' rest
  end.

(** The specification: the run of a [Segments] token is made of any
    characters, separators included. *)
Definition spec_matches (pattern p : str) : Prop :=
  matches (fun _ => true) (tokens pattern) p.

(** What the compiled expression accepts: the same, except that the run
    of a [Segments] token has no line terminator. *)
Definition code_matches (pattern p : str) : Prop :=
  matches (fun c => negb (RegExp.is_line_terminator c)) (tokens pattern) p.

(** The text and the term that [globToRegex] produces for one token. *)
Definition text_of (t : token) : str :=
  match t with
  | Literal c => if is_escaped_char c then [backslash; c] else [c]
  | AnyChar => lit "[^/]"
  | Segments => lit "(?:.+/)?"
  | Star => lit "[^/]*"
  end.

Definition term_of (t : token) : RegExp.re :=
  match t with
  | Literal c => RegExp.RChar c
  | AnyChar => RegExp.RClass true [slash]
  | Segments =>
      RegExp.ROpt
        (RegExp.RSeq (RegExp.RPlus RegExp.RDot)
                     (RegExp.RSeq (RegExp.RChar slash) RegExp.REmpty))
  | Star => RegExp.RStar (RegExp.RClass true [slash])
  end.

Fixpoint seq_of (ts : list token) (tail : RegExp.re) : RegExp.re :=
  match ts with
  | [] => tail
  | t :: ts' => RegExp.RSeq (term_of t) (seq_of ts' tail)
  end.

End GlobSpec.

(** ** What a walk reads, opens and collects

    Pure readings of [visit] and [walk], used to state and prove the
    properties of the walker; they are proved equal to what the effectful
    code does. *)
Section Reading.

Variable pf : Path.platform.
Variable baseDir : str.
Variable options : GlobOptions.
Variables matchers ignoreMatchers ignoreNegMatchers : list RegExp.re.

(** [relPathUnix] of the entry at [fullPath]. *)
Definition relPathUnix_of (fullPath : list str) : str :=
  to_unix pf (Path.relative pf fullPath).

Definition ignored (fullPath : list str) : bool :=
  isIgnored ignoreMatchers ignoreNegMatchers (relPathUnix_of fullPath).

(** Eligible under [type]. *)
Definition eligible (t : dirent_type) : bool :=
  match t, type options with
  | DT_Dir, (Folders | All) => true
  | DT_File, (Files | All) => true
  | _, _ => false
  end.

(** A file passes unless extensionless files are excluded and its name
    has no extension. *)
Definition passes_extension_filter (t : dirent_type) (name : str) : bool :=
  match t with
  | DT_File =>
      negb (negb (matchFilesWithoutExtensions options)
            && str_eqb (Path.extname name) [])
  | _ => true
  end.

Definition matched (fullPath : list str) : bool :=
  some matchers (relPathUnix_of fullPath).

(** The string pushed for the entry at [fullPath]. *)
Definition pushed_for (fullPath : list str) : str :=
  pushed_path pf baseDir options (Path.relative pf fullPath).

(** What one iteration of the loop pushes. *)
Definition collected (fullPath : list str) (t : dirent_type) : option str :=
  if ignored fullPath then None
  else if eligible t && passes_extension_filter t (last fullPath [])
          && matched fullPath
       then Some (pushed_for fullPath)
       else None.

(** Whether one iteration of the loop schedules a sub-walk. *)
Definition descends (fullPath : list str) (t : dirent_type) (currentDepth : Z) : bool :=
  match t with
  | DT_Dir => negb (ignored fullPath) && depth_lt currentDepth (maxDepth options)
  | _ => false
  end.

Definition option_list {A} (o : option A) : list A :=
  match o with
  | Some a => [a]
  | None => []
  end.

(** The entries handed to the loop during [walk(dirPath, currentDepth)]
    on the node [n], each with its path, type and depth. *)
Fixpoint listed (n : node) (dirPath : list str) (currentDepth : Z)
  : list (list str * dirent_type * Z) :=
  if depth_gt currentDepth (maxDepth options) then []
  else
    match n with
    | Node _ None => []
    | Node _ (Some entries) =>
        map (fun e => (Path.join dirPath (fst e), dirent_type_of (snd e),
                       currentDepth)) entries
        ++ flat_map
             (fun e =>
                if descends (Path.join dirPath (fst e))
                            (dirent_type_of (snd e)) currentDepth
                then listed (snd e) (Path.join dirPath (fst e))
                            (currentDepth + 1)%Z
                else []) entries
    end.

(** The trace of [walk(dirPath, currentDepth)] on the node [n]. *)
Fixpoint walk_trace (n : node) (dirPath : list str) (currentDepth : Z)
  : list event :=
  if depth_gt currentDepth (maxDepth options) then []
  else
    EvOpendir dirPath currentDepth ::
    match n with
    | Node _ None => [EvError dirPath]
    | Node _ (Some entries) =>
        map (fun e => EvDirent (Path.join dirPath (fst e))
                               (dirent_type_of (snd e)) currentDepth) entries
        ++ flat_map
             (fun e =>
                if descends (Path.join dirPath (fst e))
                            (dirent_type_of (snd e)) currentDepth
                then walk_trace (snd e) (Path.join dirPath (fst e))
                                (currentDepth + 1)%Z
                else []) entries
    end.

Definition walk_results (n : node) (dirPath : list str) (currentDepth : Z)
  : list str :=
  flat_map (fun e => option_list (collected (fst (fst e)) (snd (fst e))))
           (listed n dirPath currentDepth).

End Reading.

(** The expression of a pattern ([globToRegex] never throws). *)
Definition regex_of (pattern : str) : RegExp.re :=
  match globToRegex pattern with
  | Some r => r
  | None => RegExp.REmpty
  end.

(** [matchers] of a call. *)
Definition matchers_of (patterns : one_or_many) : list RegExp.re :=
  map regex_of (map normalize_slashes (to_array patterns)).

(** The lines [loadGitignore] returns. *)
Definition gitignore_lines (w : world) : list str :=
  match gitignore w with
  | None => []
  | Some content =>
      filter (fun line => negb (str_eqb line [])
                          && negb (JsString.startsWith (lit "#") line))
             (map JsString.trim (JsString.split newline content))
  end.

(** [ignoreList] of a call, with the slashes normalized. *)
Definition ignoreList_of (w : world) (options : GlobOptions) : list str :=
  map normalize_slashes
      (to_array (ignore options)
       ++ (if useGitignore options then gitignore_lines w else [])).

Definition is_override (normIgn : str) : bool :=
  JsString.startsWith (lit "!") normIgn.

(** [ignoreMatchers] and [ignoreNegMatchers] for a list of normalized
    ignore patterns. *)
Definition deny_matchers (normalized : list str) : list RegExp.re :=
  map regex_of (filter (fun p => negb (is_override p)) normalized).

Definition override_matchers (normalized : list str) : list RegExp.re :=
  map regex_of (map JsString.substring1 (filter is_override normalized)).

(** The closures and the readings of the walk of one call. *)
Section FindReading.

Variable pf : Path.platform.
Variable w : world.
Variable patterns : one_or_many.
Variable options : GlobOptions.

Definition find_deny : list RegExp.re := deny_matchers (ignoreList_of w options).
Definition find_override : list RegExp.re :=
  override_matchers (ignoreList_of w options).

(** [isIgnored] of the call, on the entry at [fullPath]. *)
Definition find_ignored (fullPath : list str) : bool :=
  ignored pf find_deny find_override fullPath.

(** [matchers.some(...)] of the call, on the entry at [fullPath]. *)
Definition find_matched (fullPath : list str) : bool :=
  matched pf (matchers_of patterns) fullPath.

(** The string the call pushes for the entry at [fullPath]. *)
Definition find_pushed_for (fullPath : list str) : str :=
  pushed_for pf (cwd options) options fullPath.

Definition find_collected (fullPath : list str) (t : dirent_type) : option str :=
  collected pf (cwd options) options (matchers_of patterns)
            find_deny find_override fullPath t.

Definition find_listed : list (list str * dirent_type * Z) :=
  listed pf options find_deny find_override (Node DT_Dir (root w)) [] 0%Z.

Definition find_results : list str :=
  walk_results pf (cwd options) options (matchers_of patterns)
               find_deny find_override (Node DT_Dir (root w)) [] 0%Z.

End FindReading.

(** Names as a file system has them: not empty, without a slash or the
    separator of the platform, and distinct within a directory. *)
Definition good_name (pf : Path.platform) (name : str) : bool :=
  negb (str_eqb name [])
  && forallb (fun c => negb (Ascii.eqb c slash)
                       && negb (Ascii.eqb c (Path.sep pf))) name.

Fixpoint distinct (names : list str) : bool :=
  match names with
  | [] => true
  | x :: rest => negb (existsb (str_eqb x) rest) && distinct rest
  end.

Fixpoint good_node (pf : Path.platform) (n : node) : bool :=
  match n with
  | Node _ None => true
  | Node _ (Some entries) =>
      forallb (good_name pf) (map fst entries)
      && distinct (map fst entries)
      && forallb (fun e => good_node pf (snd e)) entries
  end.

Definition good_world (pf : Path.platform) (w : world) : bool :=
  good_node pf (Node DT_Dir (root w)).

(** [reaches n rel child]: the names [rel] lead from the directory [n] down
    to the entry [child]. *)
Inductive reaches : node -> list str -> node -> Prop :=
| reaches_entry t entries name child :
    In (name, child) entries ->
    reaches (Node t (Some entries)) [name] child
| reaches_below t entries name child rel n' :
    In (name, child) entries ->
    reaches child rel n' ->
    reaches (Node t (Some entries)) (name :: rel) n'.

(** The tree in which every directory that cannot be opened is an empty
    directory. *)
Fixpoint emptied (n : node) : node :=
  match n with
  | Node t None => Node t (Some [])
  | Node t (Some entries) =>
      Node t (Some (map (fun e => (fst e, emptied (snd e))) entries))
  end.

(** ** Sample trees *)

Definition file : node := Node DT_File None.
Definition folder (entries : list (str * node)) : node := Node DT_Dir (Some entries).

(** [a.ts], [b.js] and [sub/c.ts]. *)
Definition tree_ts : world := {|
  root := Some [ (lit "a.ts", file); (lit "b.js", file);
                 (lit "sub", folder [(lit "c.ts", file)]) ];
  gitignore := None
|}.

(** [node_modules/pkg/index.js] and [src/index.js]. *)
Definition tree_node_modules : world := {|
  root := Some [ (lit "node_modules",
                  folder [(lit "pkg", folder [(lit "index.js", file)])]);
                 (lit "src", folder [(lit "index.js", file)]) ];
  gitignore := None
|}.

(** [Makefile] and [main.c]. *)
Definition tree_makefile : world := {|
  root := Some [ (lit "Makefile", file); (lit "main.c", file) ];
  gitignore := None
|}.

(** A directory whose name has a line feed in it, with the file [a]. *)
Definition tree_line_feed : world := {|
  root := Some [ (lit "d" ++ [newline], folder [(lit "a", file)]) ];
  gitignore := None
|}.

(** A socket, and a symbolic link to a directory that holds [x.txt]. *)
Definition tree_special : world := {|
  root := Some [ (lit "sock", Node DT_Other None);
                 (lit "link", Node DT_Other (Some [(lit "x.txt", file)]));
                 (lit "real", folder [(lit "x.txt", file)]) ];
  gitignore := None
|}.

(** A directory that cannot be opened next to [src/a.ts]. *)
Definition tree_locked : world := {|
  root := Some [ (lit "locked", Node DT_Dir None);
                 (lit "src", folder [(lit "a.ts", file)]) ];
  gitignore := None
|}.

(** A base directory that cannot be opened. *)
Definition no_base : world := {| root := None; gitignore := None |}.

Definition posix_base : str := lit "/base".
Definition win32_base : str := lit "C:" ++ [backslash] ++ lit "base".

Definition emptied_world (w : world) : world := {|
  root := listing_of (emptied (Node DT_Dir (root w)));
  gitignore := gitignore w
|}.

(** A computation that succeeds with [a] after appending [R] to the
    results and [T] to the trace, whatever the state. *)
Definition runs {A} (c : M A) (a : A) (R : list str) (T : list event) : Prop :=
  forall st,
    c st = (inr a, {| results := results st ++ R; trace := trace st ++ T |}).

(** The same for a computation that throws [e]. *)
Definition throws {A} (c : M A) (e : error) (R : list str) (T : list event) : Prop :=
  forall st,
    c st = (inl e, {| results := results st ++ R; trace := trace st ++ T |}).

(** ** Auxiliary notions for the proofs about [globToRegex] *)

(** The first two replacements, character by character. *)
Definition pre (p : str) : str := replace_question (escape_metachars p).

(** Where the text of a character starts. *)
Definition head_of (c : ascii) : ascii :=
  if is_escaped_char c then backslash
  else if Ascii.eqb c "?" then "["%char else c.

(** Tokens as [tokens] produces them: a literal is neither [?] nor [*]. *)
Definition plain_token (t : GlobSpec.token) : Prop :=
  match t with
  | GlobSpec.Literal c => c <> "?"%char /\ c <> "*"%char
  | _ => True
  end.

(** A text that no quantifier can be read from. *)
Definition no_quantifier_ahead (s : str) : Prop :=
  match s with
  | [] => True
  | x :: _ => x <> "*"%char /\ x <> "+"%char /\ x <> "?"%char
  end.

(** A matcher that reads exactly one character, chosen by [P]. *)
Definition single (P : ascii -> bool)
           (mr : nat -> str -> RegExp.Continuation -> bool) : Prop :=
  forall i s k,
    mr i s k = match s with
               | x :: s' => P x && k (S i) s'
               | [] => false
               end.

Definition not_slash (x : ascii) : bool := negb (Ascii.eqb x slash).
Definition not_terminator (x : ascii) : bool :=
  negb (RegExp.is_line_terminator x).

(** The continuation of [test]: any end position is accepted. *)
Definition accept : RegExp.Continuation := fun _ _ => true.

(** ** Notions used to state further properties *)

(** A pattern without wildcard characters. *)
Definition wildcard_free (pattern : str) : bool :=
  forallb (fun c => negb (Ascii.eqb c "?") && negb (Ascii.eqb c "*")) pattern.

Definition with_absolute (b : bool) (o : GlobOptions) : GlobOptions := {|
  cwd := cwd o; maxDepth := maxDepth o; ignore := ignore o;
  matchFilesWithoutExtensions := matchFilesWithoutExtensions o;
  absolute := b; useGitignore := useGitignore o; type := type o
|}.

Definition with_useGitignore (b : bool) (o : GlobOptions) : GlobOptions := {|
  cwd := cwd o; maxDepth := maxDepth o; ignore := ignore o;
  matchFilesWithoutExtensions := matchFilesWithoutExtensions o;
  absolute := absolute o; useGitignore := b; type := type o
|}.

(** [a <= b] for depth limits, with [Infinity] above every number. *)
Definition limit_le (a b : limit) : Prop :=
  match a, b with
  | _, Infinity => True
  | Finite m, Finite m' => (m <= m')%Z
  | Infinity, Finite _ => False
  end.

(** A path written with slashes, rewritten with the separator of the
    platform. *)
Definition to_platform (pf : Path.platform) (s : str) : str :=
  JsString.join [Path.sep pf] (JsString.split slash s).

(** [a.ts], [build/out.ts] and a [.gitignore] with a comment, a blank
    line, and two patterns, one of them with spaces around it and a
    carriage return at the end. *)
Definition tree_gitignore : world := {|
  root := Some [ (lit ".gitignore", file); (lit "a.ts", file);
                 (lit "build", folder [(lit "out.ts", file)]) ];
  gitignore := Some (lit "# build output" ++ [newline] ++ lit "build"
                     ++ [newline] ++ [newline] ++ lit "  *.log "
                     ++ [carriage_return; newline])
|}.

(** [descent n rel child]: the names [rel] lead from the directory [n]
    down to the entry [child] through entries that say they are
    directories. *)
Inductive descent : node -> list str -> node -> Prop :=
| descent_entry t entries name child :
    In (name, child) entries ->
    descent (Node t (Some entries)) [name] child
| descent_below t entries name listing rel n' :
    In (name, Node DT_Dir listing) entries ->
    descent (Node DT_Dir listing) rel n' ->
    descent (Node t (Some entries)) (name :: rel) n'.

(* ================================================================== *)
(** * Part II: properties *)
(* ================================================================== *)

(** ** Characters *)

Lemma eqb_neq_false (a b : ascii) : a <> b -> Ascii.eqb a b = false.
Proof. intro H. destruct (Ascii.eqb_spec a b); congruence. Qed.

(** ** [globToRegex]: the source text, token by token *)

Section GlobSource.

Import GlobSpec.

Lemma pre_cons c p :
  pre (c :: p) =
  (if is_escaped_char c then [backslash; c]
   else if Ascii.eqb c "?" then lit "[^/]" else [c]) ++ pre p.
Proof.
  unfold pre, replace_question, escape_metachars, JsString.replace_each.
  cbn [flat_map]. rewrite flat_map_app.
  destruct (is_escaped_char c) eqn:E.
  - destruct (Ascii.eqb_spec c "?") as [->|N]; [discriminate E|].
    cbn. rewrite (eqb_neq_false _ _ N). reflexivity.
  - cbn. destruct (Ascii.eqb c "?"); reflexivity.
Qed.

Lemma pre_cons_head c p : exists t, pre (c :: p) = head_of c :: t ++ pre p.
Proof.
  rewrite pre_cons. unfold head_of.
  destruct (is_escaped_char c); [eexists [_]; reflexivity|].
  destruct (Ascii.eqb c "?"); [eexists [_;_;_] | exists []]; reflexivity.
Qed.

Lemma head_of_not c x :
  is_escaped_char x = false -> x <> "["%char -> c <> x -> head_of c <> x.
Proof.
  intros E B N. unfold head_of.
  destruct (is_escaped_char c).
  - intros <-. discriminate E.
  - destruct (Ascii.eqb c "?"); congruence.
Qed.

Lemma replace_globstar_other c s :
  c <> "*"%char -> replace_globstar (c :: s) = c :: replace_globstar s.
Proof.
  intro N. cbn [replace_globstar]. rewrite (eqb_neq_false _ _ N).
  destruct s as [|c2 [|c3 s3]]; reflexivity.
Qed.

Lemma replace_globstar_star x s :
  x <> "*"%char ->
  replace_globstar ("*"%char :: x :: s) = "*"%char :: replace_globstar (x :: s).
Proof.
  intro N. cbn [replace_globstar]. rewrite (eqb_neq_false _ _ N).
  destruct s; reflexivity.
Qed.

Lemma replace_globstar_star_star x s :
  x <> slash ->
  replace_globstar ("*"%char :: "*"%char :: x :: s) =
  "*"%char :: replace_globstar ("*"%char :: x :: s).
Proof.
  intro N.
  change (replace_globstar ("*"%char :: "*"%char :: x :: s))
    with (if Ascii.eqb "*" "*" && Ascii.eqb "*" "*" && Ascii.eqb x slash
          then lit "(?:.+/)?" ++ replace_globstar s
          else "*"%char :: replace_globstar ("*"%char :: x :: s)).
  rewrite (eqb_neq_false _ _ N). reflexivity.
Qed.

Lemma replace_star_app a b : replace_star (a ++ b) = replace_star a ++ replace_star b.
Proof. apply flat_map_app. Qed.

Lemma replace_star_other c s :
  c <> "*"%char -> replace_star (c :: s) = c :: replace_star s.
Proof.
  intro N. unfold replace_star, JsString.replace_each. cbn [flat_map].
  rewrite (eqb_neq_false _ _ N). reflexivity.
Qed.

Lemma escaped_not_star c : is_escaped_char c = true -> c <> "*"%char.
Proof. intros E ->. discriminate E. Qed.

Lemma replace_globstar_no_star l s :
  forallb (fun c => negb (Ascii.eqb c "*")) l = true ->
  replace_globstar (l ++ s) = l ++ replace_globstar s.
Proof.
  induction l as [|c l IH]; intro H; [reflexivity|].
  cbn [forallb] in H. apply andb_prop in H as [Hc Hl].
  cbn [app]. rewrite replace_globstar_other, IH; auto.
  intros ->. discriminate Hc.
Qed.

Lemma replace_star_no_star l s :
  forallb (fun c => negb (Ascii.eqb c "*")) l = true ->
  replace_star (l ++ s) = l ++ replace_star s.
Proof.
  induction l as [|c l IH]; intro H; [reflexivity|].
  cbn [forallb] in H. apply andb_prop in H as [Hc Hl].
  cbn [app]. rewrite replace_star_other, IH; auto.
  intros ->. discriminate Hc.
Qed.

Ltac star_text :=
  change (is_escaped_char "*") with false;
  change (Ascii.eqb "*" "?") with false;
  cbn iota; cbn [app].

Lemma tokens_cons c p1 :
  tokens (c :: p1) =
  if Ascii.eqb c "?" then AnyChar :: tokens p1
  else if Ascii.eqb c "*" then
    match p1 with
    | c2 :: c3 :: p3 =>
        if Ascii.eqb c2 "*" && Ascii.eqb c3 slash
        then Segments :: tokens p3
        else Star :: tokens p1
    | _ => Star :: tokens p1
    end
  else Literal c :: tokens p1.
Proof. reflexivity. Qed.

Lemma tokens_star x p :
  x <> "*"%char -> tokens ("*"%char :: x :: p) = Star :: tokens (x :: p).
Proof.
  intro N. rewrite tokens_cons. star_text.
  change (Ascii.eqb "*" "*") with true. cbn iota.
  rewrite (eqb_neq_false _ _ N). destruct p; reflexivity.
Qed.

Lemma tokens_star_star x p :
  x <> slash ->
  tokens ("*"%char :: "*"%char :: x :: p) = Star :: tokens ("*"%char :: x :: p).
Proof.
  intro N. rewrite tokens_cons. star_text.
  change (Ascii.eqb "*" "*") with true. cbn iota.
  rewrite (eqb_neq_false _ _ N). reflexivity.
Qed.

(** The four replacements of [globToRegex] amount to writing the text of
    each token in turn: no replacement touches the text written by an
    earlier one. *)
Lemma replacements_tokens_bounded n :
  forall p, length p <= n ->
    replace_star (replace_globstar (pre p)) = flat_map text_of (tokens p).
Proof.
  induction n as [|n IH]; intros p Hn.
  - destruct p; [reflexivity | cbn in Hn; lia].
  - destruct p as [|c p1]; [reflexivity|].
    cbn [length] in Hn.
    assert (IH1 : replace_star (replace_globstar (pre p1))
                  = flat_map text_of (tokens p1)) by (apply IH; lia).
    rewrite pre_cons.
    destruct (Ascii.eqb_spec c "?") as [->|Nq].
    { change (is_escaped_char "?") with false. cbn iota.
      rewrite tokens_cons. change (Ascii.eqb "?" "?") with true. cbn iota.
      cbn [flat_map text_of]. rewrite <- IH1.
      rewrite replace_globstar_no_star, replace_star_no_star; reflexivity. }
    destruct (Ascii.eqb_spec c "*") as [->|Ns].
    { star_text.
      destruct p1 as [|c2 p2]; [reflexivity|].
      destruct (Ascii.eqb_spec c2 "*") as [->|N2].
      - destruct p2 as [|c3 p3]; [reflexivity|].
        destruct (Ascii.eqb_spec c3 slash) as [->|N3].
        + change (tokens ("*"%char :: "*"%char :: slash :: p3))
            with (Segments :: tokens p3).
          cbn [flat_map text_of].
          rewrite <- (IH p3) by (cbn in Hn; lia).
          rewrite (pre_cons "*" (slash :: p3)), (pre_cons slash p3).
          change (is_escaped_char slash) with false.
          change (Ascii.eqb slash "?") with false. star_text.
          change (replace_globstar ("*"%char :: "*"%char :: slash :: pre p3))
            with (lit "(?:.+/)?" ++ replace_globstar (pre p3)).
          rewrite replace_star_no_star; reflexivity.
        + rewrite tokens_star_star by exact N3.
          cbn [flat_map text_of]. rewrite <- IH1.
          rewrite (pre_cons "*" (c3 :: p3)). star_text.
          destruct (pre_cons_head c3 p3) as [t ->].
          rewrite replace_globstar_star_star; [reflexivity|].
          apply head_of_not; [reflexivity | discriminate | exact N3].
      - rewrite tokens_star by exact N2.
        cbn [flat_map text_of]. rewrite <- IH1.
        destruct (pre_cons_head c2 p2) as [t ->].
        rewrite replace_globstar_star; [reflexivity|].
        apply head_of_not; [reflexivity | discriminate | exact N2]. }
    rewrite tokens_cons, (eqb_neq_false _ _ Nq), (eqb_neq_false _ _ Ns).
    cbn [flat_map text_of]. rewrite <- IH1.
    destruct (is_escaped_char c) eqn:E.
    + cbn [app].
      rewrite replace_globstar_other by discriminate.
      rewrite replace_globstar_other by (apply escaped_not_star; exact E).
      rewrite replace_star_other by discriminate.
      rewrite replace_star_other by (apply escaped_not_star; exact E).
      reflexivity.
    + cbn [app].
      rewrite replace_globstar_other by exact Ns.
      rewrite replace_star_other by exact Ns.
      reflexivity.
Qed.

Lemma globToRegex_source_tokens p :
  globToRegex_source p = lit "^" ++ flat_map text_of (tokens p) ++ lit "$".
Proof.
  unfold globToRegex_source. fold (pre p).
  rewrite (replacements_tokens_bounded (length p) p (Nat.le_refl _)).
  reflexivity.
Qed.

End GlobSource.

(** ** [globToRegex]: the source always compiles *)

Section GlobCompile.

Import GlobSpec RegExp.

Lemma tokens_plain_bounded n :
  forall p, length p <= n -> Forall plain_token (tokens p).
Proof.
  induction n as [|n IH]; intros p Hn.
  - destruct p; [constructor | cbn in Hn; lia].
  - destruct p as [|c p1]; [constructor|]. cbn [length] in Hn.
    rewrite tokens_cons.
    destruct (Ascii.eqb_spec c "?"); [constructor; [exact I | apply IH; lia]|].
    destruct (Ascii.eqb_spec c "*").
    + destruct p1 as [|c2 [|c3 p3]];
        try (constructor; [exact I | apply IH; lia]).
      destruct (Ascii.eqb c2 "*" && Ascii.eqb c3 slash);
        constructor; try exact I; apply IH; cbn in *; lia.
    + constructor; [split; assumption | apply IH; lia].
Qed.

Lemma tokens_plain p : Forall plain_token (tokens p).
Proof. exact (tokens_plain_bounded (length p) p (Nat.le_refl _)). Qed.

Lemma parse_quantifier_none atom s :
  no_quantifier_ahead s -> parse_quantifier atom s = Some (atom, s).
Proof.
  destruct s as [|x s]; [reflexivity|]. intros (N1 & N2 & N3).
  unfold parse_quantifier.
  rewrite (eqb_neq_false _ _ N1), (eqb_neq_false _ _ N2), (eqb_neq_false _ _ N3).
  reflexivity.
Qed.

Lemma not_escaped c x :
  is_escaped_char c = false -> In x escaped_chars -> Ascii.eqb c x = false.
Proof.
  unfold is_escaped_char. intros E Hx.
  destruct (Ascii.eqb c x) eqn:Q; [|reflexivity].
  rewrite <- E. symmetry. apply existsb_exists. exists x. auto.
Qed.

Lemma text_of_no_quantifier t rest :
  plain_token t -> no_quantifier_ahead (text_of t ++ rest).
Proof.
  destruct t as [c| | |]; cbn [text_of]; intros H;
    try (cbn; repeat split; intro Q; discriminate Q).
  destruct (is_escaped_char c) eqn:E; cbn.
  - repeat split; intro Q; discriminate Q.
  - destruct H as [Nq Ns]. repeat split; auto.
    intros ->. discriminate E.
Qed.

Lemma texts_no_quantifier ts :
  Forall plain_token ts ->
  no_quantifier_ahead (flat_map text_of ts ++ lit "$").
Proof.
  destruct 1 as [|t ts Ht _]; cbn [flat_map].
  - cbn. repeat split; intro Q; discriminate Q.
  - rewrite <- app_assoc. apply text_of_no_quantifier. exact Ht.
Qed.

Lemma parse_alternative_step f c s1 :
  parse_alternative (S f) (c :: s1) =
  if Ascii.eqb c ")" then Some (REmpty, c :: s1)
  else match parse_term (parse_alternative f) c s1 with
       | Some (t, s2) =>
           match parse_alternative f s2 with
           | Some (r, s3) => Some (RSeq t r, s3)
           | None => None
           end
       | None => None
       end.
Proof. reflexivity. Qed.

Lemma escaped_is_syntax c : is_escaped_char c = true -> is_syntax_char c = true.
Proof.
  unfold is_escaped_char, is_syntax_char. intro E.
  apply existsb_exists in E as (x & Hx & Q).
  apply existsb_exists. exists x. split; [|exact Q].
  cbn in Hx |- *. intuition.
Qed.

Lemma parse_term_escape body c s :
  is_escaped_char c = true ->
  parse_term body backslash (c :: s) = parse_quantifier (RChar c) s.
Proof.
  intro E. unfold parse_term.
  change (Ascii.eqb backslash "^") with false.
  change (Ascii.eqb backslash "$") with false.
  change (Ascii.eqb backslash ".") with false.
  change (Ascii.eqb backslash backslash) with true. cbn iota.
  rewrite (escaped_is_syntax c E). reflexivity.
Qed.

Lemma parse_term_literal body c s :
  is_escaped_char c = false -> c <> "?"%char -> c <> "*"%char ->
  parse_term body c s = parse_quantifier (RChar c) s.
Proof.
  intros E Nq Ns. unfold parse_term.
  rewrite !(not_escaped c _ E) by (cbn; tauto).
  replace (is_syntax_char c) with false; [reflexivity|].
  symmetry. destruct (is_syntax_char c) eqn:S; [exfalso|reflexivity].
  apply existsb_exists in S as (x & Hx & Q).
  apply Ascii.eqb_eq in Q. subst x.
  cbn in Hx.
  repeat (destruct Hx as [<-|Hx]; [try discriminate E; congruence|]).
  exact Hx.
Qed.

(** The inside of the group written for a [Segments] token. *)
Lemma parse_group_body f rest :
  parse_alternative (S (S (S f))) (lit ".+/)?" ++ rest) =
  Some (RSeq (RPlus RDot) (RSeq (RChar slash) REmpty),
        ")"%char :: "?"%char :: rest).
Proof. reflexivity. Qed.

Lemma parse_quantifier_opt atom rest :
  no_quantifier_ahead rest ->
  parse_quantifier atom ("?"%char :: rest) = Some (ROpt atom, rest).
Proof.
  destruct rest as [|x rest]; [reflexivity|]. intros (_ & _ & N).
  unfold parse_quantifier.
  change (Ascii.eqb "?" "*") with false. change (Ascii.eqb "?" "+") with false.
  change (Ascii.eqb "?" "?") with true. cbn iota.
  rewrite (eqb_neq_false _ _ N). reflexivity.
Qed.

Lemma parse_quantifier_star atom rest :
  no_quantifier_ahead rest ->
  parse_quantifier atom ("*"%char :: rest) = Some (RStar atom, rest).
Proof.
  destruct rest as [|x rest]; [reflexivity|]. intros (_ & _ & N).
  unfold parse_quantifier.
  change (Ascii.eqb "*" "*") with true. cbn iota.
  rewrite (eqb_neq_false _ _ N). reflexivity.
Qed.

(** One token is read as one term. *)
Lemma parse_token t rest f :
  plain_token t -> no_quantifier_ahead rest -> length (text_of t) <= f ->
  parse_alternative (S f) (text_of t ++ rest) =
  match parse_alternative f rest with
  | Some (r, s3) => Some (RSeq (term_of t) r, s3)
  | None => None
  end.
Proof.
  intros Ht Hrest Hf. destruct t as [c| | |]; cbn [text_of term_of] in *.
  - destruct Ht as [Nq Ns]. destruct (is_escaped_char c) eqn:E; cbn [app].
    + rewrite parse_alternative_step.
      change (Ascii.eqb backslash ")") with false. cbn iota.
      rewrite parse_term_escape by exact E.
      rewrite parse_quantifier_none by exact Hrest. reflexivity.
    + rewrite parse_alternative_step.
      rewrite (not_escaped c _ E) by (cbn; tauto).
      rewrite parse_term_literal by assumption.
      rewrite parse_quantifier_none by exact Hrest. reflexivity.
  - change (lit "[^/]" ++ rest)
      with ("["%char :: "^"%char :: slash :: "]"%char :: rest).
    rewrite parse_alternative_step.
    change (Ascii.eqb "[" ")") with false. cbn iota.
    change (parse_term (parse_alternative f) "["
                       ("^"%char :: slash :: "]"%char :: rest))
      with (parse_quantifier (RClass true [slash]) rest).
    rewrite parse_quantifier_none by exact Hrest. reflexivity.
  - destruct f as [|[|[|f]]]; try (cbn in Hf; lia).
    change (lit "(?:.+/)?" ++ rest)
      with ("("%char :: "?"%char :: ":"%char :: lit ".+/)?" ++ rest).
    rewrite parse_alternative_step.
    change (Ascii.eqb "(" ")") with false. cbn iota.
    change (parse_term (parse_alternative (S (S (S f)))) "("
                       ("?"%char :: ":"%char :: lit ".+/)?" ++ rest))
      with (match parse_alternative (S (S (S f))) (lit ".+/)?" ++ rest) with
            | Some (r, close :: rest') =>
                if Ascii.eqb close ")" then parse_quantifier r rest' else None
            | _ => None
            end).
    rewrite parse_group_body.
    change (Ascii.eqb ")" ")") with true. cbn iota.
    rewrite parse_quantifier_opt by exact Hrest. reflexivity.
  - change (lit "[^/]*" ++ rest)
      with ("["%char :: "^"%char :: slash :: "]"%char :: "*"%char :: rest).
    rewrite parse_alternative_step.
    change (Ascii.eqb "[" ")") with false. cbn iota.
    change (parse_term (parse_alternative f) "["
                       ("^"%char :: slash :: "]"%char :: "*"%char :: rest))
      with (parse_quantifier (RClass true [slash]) ("*"%char :: rest)).
    rewrite parse_quantifier_star by exact Hrest. reflexivity.
Qed.

Lemma text_of_length t : 1 <= length (text_of t).
Proof.
  destruct t as [c| | |]; cbn [text_of];
    [destruct (is_escaped_char c)|..]; cbn; lia.
Qed.

Lemma parse_tokens ts :
  Forall plain_token ts ->
  forall f, length (flat_map text_of ts ++ lit "$") <= f ->
    parse_alternative (S f) (flat_map text_of ts ++ lit "$") =
    Some (seq_of ts (RSeq REol REmpty), []).
Proof.
  induction 1 as [|t ts Ht Hts IH]; intros f Hf.
  - destruct f; [cbn in Hf; lia | reflexivity].
  - cbn [flat_map seq_of] in *. rewrite <- app_assoc in *.
    rewrite length_app in Hf.
    pose proof (text_of_length t) as L.
    rewrite parse_token;
      [|exact Ht | apply texts_no_quantifier; exact Hts | lia].
    destruct f as [|f]; [lia|].
    rewrite IH by lia. reflexivity.
Qed.

(** [globToRegex] never throws, and the expression it builds is the
    sequence of the terms of the tokens between the two assertions. *)
Lemma globToRegex_compiles p :
  globToRegex p = Some (RSeq RBol (seq_of (tokens p) (RSeq REol REmpty))).
Proof.
  unfold globToRegex, compile. rewrite globToRegex_source_tokens.
  change (lit "^" ++ flat_map text_of (tokens p) ++ lit "$")
    with ("^"%char :: flat_map text_of (tokens p) ++ lit "$").
  cbn [length]. rewrite parse_alternative_step.
  change (Ascii.eqb "^" ")") with false. cbn iota.
  change (parse_term
            (parse_alternative (S (length (flat_map text_of (tokens p) ++ lit "$"))))
            "^" (flat_map text_of (tokens p) ++ lit "$"))
    with (Some (RBol, flat_map text_of (tokens p) ++ lit "$")).
  cbn iota.
  rewrite (parse_tokens _ (tokens_plain p)) by lia. reflexivity.
Qed.

End GlobCompile.

(** ** [globToRegex]: what the compiled expression accepts *)

Section GlobMatch.

Import GlobSpec RegExp.

Lemma single_class : single not_slash (matcher (RClass true [slash])).
Proof.
  intros i s k. destruct s as [|x s]; [reflexivity|].
  cbn [matcher existsb]. unfold not_slash.
  rewrite orb_false_r. destruct (Ascii.eqb x slash); reflexivity.
Qed.

Lemma single_dot : single not_terminator (matcher RDot).
Proof. intros i s k. destruct s; reflexivity. Qed.

Lemma succ_neq i : Nat.eqb (S i) i = false.
Proof. apply Nat.eqb_neq. lia. Qed.

(** A repetition of a one-character matcher reads any run of characters
    that satisfy [P]. *)
Lemma repeat_single P mr k :
  single P mr ->
  forall n i s, length s <= n ->
    repeat_matcher mr k n i s = true <->
    exists a b, s = a ++ b /\ forallb P a = true /\ k (i + length a) b = true.
Proof.
  intro Hs. induction n as [|n IH]; intros i s Hn.
  - destruct s; [|cbn in Hn; lia]. cbn [repeat_matcher]. split.
    + intro H. exists [], []. cbn. rewrite Nat.add_0_r. auto.
    + intros (a & b & E & _ & H). symmetry in E.
      apply app_eq_nil in E as [-> ->]. cbn in H.
      rewrite Nat.add_0_r in H. exact H.
  - cbn [repeat_matcher]. rewrite Hs. split.
    + intro H. apply orb_prop in H as [H|H].
      * destruct s as [|x s]; [discriminate|].
        apply andb_prop in H as [Px H]. rewrite succ_neq in H. cbn in H.
        apply IH in H as (a & b & -> & Pa & H); [|cbn in Hn; lia].
        exists (x :: a), b. cbn. rewrite Px, Pa.
        replace (i + S (length a)) with (S i + length a) by lia. auto.
      * exists [], s. cbn. rewrite Nat.add_0_r. auto.
    + intros (a & b & -> & Pa & H). destruct a as [|x a].
      * cbn in H. rewrite Nat.add_0_r in H. cbn [app]. rewrite H.
        apply orb_true_r.
      * cbn in Pa. apply andb_prop in Pa as [Px Pa]. cbn [app].
        rewrite Px, succ_neq. cbn [negb andb].
        apply orb_true_intro. left. apply IH.
        -- cbn in Hn. lia.
        -- exists a, b. repeat split; auto.
           replace (S i + length a) with (i + length (x :: a)) by (cbn; lia).
           exact H.
Qed.

Lemma forallb_not_slash piece :
  forallb not_slash piece = true <-> Forall (fun x => x <> slash) piece.
Proof.
  rewrite forallb_forall, Forall_forall. unfold not_slash.
  split; intros H x Hx; specialize (H x Hx).
  - intros ->. rewrite Ascii.eqb_refl in H. discriminate.
  - rewrite (eqb_neq_false _ _ H). reflexivity.
Qed.

(** The term of a token reads exactly the pieces the token stands for,
    with a run free of line terminators for [Segments]. *)
Lemma matcher_token t i s k :
  matcher (term_of t) i s k = true <->
  exists piece rest,
    s = piece ++ rest /\ consumes not_terminator t piece /\
    k (i + length piece) rest = true.
Proof.
  destruct t as [c| | |]; cbn [term_of consumes].
  - (* a literal *)
    cbn [matcher]. split.
    + destruct s as [|x s]; [discriminate|]. intro H.
      apply andb_prop in H as [Q H]. apply Ascii.eqb_eq in Q. subst x.
      exists [c], s. cbn. rewrite Nat.add_1_r. auto.
    + intros (piece & rest & -> & -> & H). cbn in *.
      rewrite Ascii.eqb_refl, Nat.add_1_r in *. exact H.
  - (* one character *)
    rewrite single_class. split.
    + destruct s as [|x s]; [discriminate|]. intro H.
      apply andb_prop in H as [Q H].
      exists [x], s. cbn. rewrite Nat.add_1_r. repeat split; auto.
      exists x. split; [reflexivity|]. intros ->. discriminate Q.
    + intros (piece & rest & -> & (x & -> & N) & H). cbn in *.
      unfold not_slash. rewrite (eqb_neq_false _ _ N), Nat.add_1_r in *.
      exact H.
  - (* whole segments *)
    cbn [matcher]. split.
    + intro H. apply orb_prop in H as [H|H].
      * destruct s as [|x s]; [discriminate|].
        apply andb_prop in H as [Px H].
        apply (repeat_single not_terminator _ _ single_dot) in H
          as (a & b & -> & Pa & H); [|lia].
        destruct b as [|y b]; [discriminate|].
        apply andb_prop in H as [Q H]. apply Ascii.eqb_eq in Q. subst y.
        apply andb_prop in H as [_ H].
        exists ((x :: a) ++ [slash]), b. split; [|split].
        -- cbn. rewrite <- app_assoc. reflexivity.
        -- right. exists (x :: a). repeat split; [discriminate|].
           cbn [forallb]. unfold not_terminator at 1. rewrite Px, Pa.
           reflexivity.
        -- rewrite length_app. cbn.
           replace (i + S (length a + 1)) with (S (S i + length a)) by lia.
           exact H.
      * exists [], s. cbn. rewrite Nat.add_0_r. auto.
    + intros (piece & rest & -> & [->|(run & -> & Nrun & Prun)] & H).
      * cbn in H. rewrite Nat.add_0_r in H. cbn [app]. rewrite H.
        apply orb_true_r.
      * destruct run as [|x run]; [congruence|].
        cbn [forallb] in Prun. apply andb_prop in Prun as [Px Prun].
        unfold not_terminator in Px.
        cbn [app]. rewrite Px. cbn [andb].
        apply orb_true_intro. left.
        apply (repeat_single not_terminator _ _ single_dot).
        -- lia.
        -- exists run, (slash :: rest). split; [|split].
           ++ rewrite <- app_assoc. reflexivity.
           ++ exact Prun.
           ++ cbn [matcher]. rewrite Ascii.eqb_refl. cbn [andb].
              replace (Nat.eqb (S (S i + length run)) i) with false
                by (symmetry; apply Nat.eqb_neq; lia).
              cbn [negb andb]. rewrite length_app in H. cbn in H.
              replace (S (S i + length run))
                with (i + (S (length run + 1))) by lia.
              exact H.
  - (* a star *)
    cbn [matcher].
    rewrite (repeat_single not_slash _ _ single_class) by lia.
    split; intros (a & b & E & Pa & H); exists a, b; repeat split; auto;
      apply forallb_not_slash; exact Pa.
Qed.

Lemma matcher_tokens ts :
  forall i s,
    matcher (seq_of ts (RSeq REol REmpty)) i s accept = true <->
    matches not_terminator ts s.
Proof.
  induction ts as [|t ts IH]; intros i s; cbn [seq_of matches].
  - cbn [matcher]. destruct s; split; intro H; auto; discriminate.
  - cbn [matcher]. rewrite matcher_token. split.
    + intros (piece & rest & -> & Hc & H). apply IH in H.
      exists piece, rest. auto.
    + intros (piece & rest & -> & Hc & H).
      exists piece, rest. repeat split; auto. apply IH. exact H.
Qed.

(** An expression that starts with [^] only matches at index 0. *)
Lemma search_anchored r s :
  forall i, i <> 0 -> search (RSeq RBol r) i s = false.
Proof.
  induction s as [|x s IH]; intros i Hi; cbn [search matcher].
  - apply Nat.eqb_neq in Hi. rewrite Hi. reflexivity.
  - rewrite IH by lia. apply Nat.eqb_neq in Hi. rewrite Hi. reflexivity.
Qed.

Lemma test_anchored r s :
  test (RSeq RBol r) s = matcher r 0 s accept.
Proof.
  unfold test. destruct s as [|x s]; cbn [search matcher Nat.eqb andb].
  - apply orb_false_r.
  - rewrite search_anchored by lia. apply orb_false_r.
Qed.

(** The compiled expression accepts the paths that split along the
    tokens of the pattern, as whole strings. *)
Lemma globToRegex_accepts pattern :
  exists r, globToRegex pattern = Some r /\
            forall p, test r p = true <-> code_matches pattern p.
Proof.
  eexists. split; [apply globToRegex_compiles|].
  intro p. rewrite test_anchored. apply matcher_tokens.
Qed.

Lemma forallb_weaken (rc1 rc2 : ascii -> bool) run :
  (forall x, In x run -> rc1 x = true -> rc2 x = true) ->
  forallb rc1 run = true -> forallb rc2 run = true.
Proof.
  rewrite !forallb_forall. intros H H1 x Hx. apply H; auto.
Qed.

(** The glob semantics only depends on [run_char] through the characters
    of the path. *)
Lemma matches_weaken rc1 rc2 ts :
  forall p,
    (forall x, In x p -> rc1 x = true -> rc2 x = true) ->
    matches rc1 ts p -> matches rc2 ts p.
Proof.
  induction ts as [|t ts IH]; intros p Hp; cbn [matches]; [auto|].
  intros (piece & rest & -> & Hc & Hm). exists piece, rest.
  split; [reflexivity|]. split.
  - destruct t; cbn [consumes] in *; auto.
    destruct Hc as [->|(run & -> & Hne & Hrun)]; [left; reflexivity|].
    right. exists run. repeat split; auto.
    revert Hrun. apply forallb_weaken. intros x Hx. apply Hp.
    apply in_or_app. left. apply in_or_app. left. exact Hx.
  - apply IH; [|exact Hm]. intros x Hx. apply Hp. apply in_or_app. auto.
Qed.

Lemma code_matches_spec pattern p :
  code_matches pattern p -> spec_matches pattern p.
Proof. apply matches_weaken. reflexivity. Qed.

Lemma spec_matches_code pattern p :
  forallb not_terminator p = true ->
  spec_matches pattern p -> code_matches pattern p.
Proof.
  intro Hp. apply matches_weaken. intros x Hx _.
  rewrite forallb_forall in Hp. exact (Hp x Hx).
Qed.

End GlobMatch.

(** ** The effects of the walker *)

Section Effects.

Lemma runs_ret {A} (a : A) : runs (ret a) a [] [].
Proof. intros [R T]. unfold ret. cbn. rewrite !app_nil_r. reflexivity. Qed.

Lemma runs_bind {A B} (c : M A) (f : A -> M B) a b R1 T1 R2 T2 :
  runs c a R1 T1 -> runs (f a) b R2 T2 ->
  runs (bind c f) b (R1 ++ R2) (T1 ++ T2).
Proof.
  intros Hc Hf st. unfold bind. rewrite Hc, Hf. cbn.
  rewrite !app_assoc. reflexivity.
Qed.

Lemma runs_push p : runs (push p) tt [p] [].
Proof. intros [R T]. unfold push. cbn. rewrite app_nil_r. reflexivity. Qed.

Lemma runs_emit ev : runs (emit ev) tt [] [ev].
Proof. intros [R T]. unfold emit. cbn. rewrite app_nil_r. reflexivity. Qed.

Lemma runs_try {A} (body : M A) handler a R T :
  runs body a R T -> runs (try_catch body handler) a R T.
Proof. intros H st. unfold try_catch. rewrite H. reflexivity. Qed.

Lemma runs_catch {A} (body : M A) handler e a R1 T1 R2 T2 :
  throws body e R1 T1 -> runs (handler e) a R2 T2 ->
  runs (try_catch body handler) a (R1 ++ R2) (T1 ++ T2).
Proof.
  intros Hb Hh st. unfold try_catch. rewrite Hb, Hh. cbn.
  rewrite !app_assoc. reflexivity.
Qed.

Lemma throws_bind {A B} (c : M A) (f : A -> M B) a e R1 T1 R2 T2 :
  runs c a R1 T1 -> throws (f a) e R2 T2 ->
  throws (bind c f) e (R1 ++ R2) (T1 ++ T2).
Proof.
  intros Hc Hf st. unfold bind. rewrite Hc, Hf. cbn.
  rewrite !app_assoc. reflexivity.
Qed.

Lemma throws_throw {A} e : throws (@throw A e) e [] [].
Proof. intros [R T]. unfold throw. cbn. rewrite !app_nil_r. reflexivity. Qed.

Lemma runs_eq {A} (c : M A) a R T R' T' :
  runs c a R T -> R = R' -> T = T' -> runs c a R' T'.
Proof. intros H <- <-. exact H. Qed.

Lemma runs_promise_all_cons p ps R1 T1 R2 T2 :
  runs p tt R1 T1 -> runs (promise_all ps) tt R2 T2 ->
  runs (promise_all (p :: ps)) tt (R1 ++ R2) (T1 ++ T2).
Proof.
  intros Hp Hps st. cbn [promise_all]. rewrite Hp, Hps. cbn.
  rewrite !app_assoc. reflexivity.
Qed.

End Effects.

(** ** [walk] does what its readings say *)

Lemma node_induction (P : node -> Prop) :
  (forall t, P (Node t None)) ->
  (forall t entries, Forall (fun e => P (snd e)) entries -> P (Node t (Some entries))) ->
  forall n, P n.
Proof.
  intros Hnone Hsome.
  fix IH 1. intros [t [entries|]]; [|apply Hnone].
  apply Hsome. induction entries as [|[name child] rest IHrest].
  - constructor.
  - constructor; [exact (IH child) | exact IHrest].
Qed.

Lemma flat_map_flat_map {A B C} (f : B -> list C) (g : A -> list B) l :
  flat_map f (flat_map g l) = flat_map (fun a => flat_map f (g a)) l.
Proof.
  induction l as [|a l IH]; [reflexivity|].
  cbn [flat_map]. rewrite flat_map_app, IH. reflexivity.
Qed.

Section WalkRuns.

Variable pf : Path.platform.
Variable baseDir : str.
Variable options : GlobOptions.
Variables matchers ignoreMatchers ignoreNegMatchers : list RegExp.re.

Local Abbreviation visit' := (visit pf baseDir options matchers ignoreMatchers ignoreNegMatchers).
Local Abbreviation walk_node' := (walk_node pf baseDir options matchers ignoreMatchers ignoreNegMatchers).
Local Abbreviation collected' := (collected pf baseDir options matchers ignoreMatchers ignoreNegMatchers).
Local Abbreviation descends' := (descends pf options ignoreMatchers ignoreNegMatchers).
Local Abbreviation listed' := (listed pf options ignoreMatchers ignoreNegMatchers).
Local Abbreviation walk_trace' := (walk_trace pf options ignoreMatchers ignoreNegMatchers).
Local Abbreviation walk_results' := (walk_results pf baseDir options matchers ignoreMatchers ignoreNegMatchers).

Lemma last_join dirPath name : last (Path.join dirPath name) [] = name.
Proof. unfold Path.join. apply last_last. Qed.

Lemma runs_collect relPath relPathUnix :
  runs (collect pf baseDir options matchers relPath relPathUnix) tt
       (if some matchers relPathUnix
        then [pushed_path pf baseDir options relPath] else []) [].
Proof.
  unfold collect. destruct (some matchers relPathUnix).
  - apply runs_push.
  - apply runs_ret.
Qed.

Ltac run_steps :=
  repeat first
    [ apply runs_ret | apply runs_emit | apply runs_push
    | apply runs_collect | eapply runs_bind ].

Ltac run_all :=
  eapply runs_eq; [run_steps | cbn; rewrite ?app_nil_r; try reflexivity ..].

(** One iteration of the loop. *)
Lemma runs_visit dirPath currentDepth name t sub_walk :
  runs (visit' dirPath currentDepth name t sub_walk)
       (if descends' (Path.join dirPath name) t currentDepth
        then [sub_walk] else [])
       (option_list (collected' (Path.join dirPath name) t))
       [EvDirent (Path.join dirPath name) t currentDepth].
Proof.
  unfold visit, collected, descends, ignored, matched, pushed_for,
    relPathUnix_of, eligible, passes_extension_filter.
  rewrite last_join.
  set (fullPath := Path.join dirPath name).
  set (relPath := Path.relative pf fullPath).
  destruct (isIgnored ignoreMatchers ignoreNegMatchers (to_unix pf relPath));
    [destruct t; run_all|].
  destruct t; destruct (type options); cbn [negb andb];
    try destruct (negb (matchFilesWithoutExtensions options)
                  && str_eqb (Path.extname name) []);
    try destruct (depth_lt currentDepth (maxDepth options));
    cbn [negb andb]; run_all;
    destruct (some matchers (to_unix pf relPath)); reflexivity.
Qed.

(** The loop over the entries of a directory. *)
Lemma runs_for_await dirPath currentDepth entries :
  runs
    ((fix for_await (entries : list (str * node)) : M (list (M unit)) :=
        match entries with
        | [] => ret []
        | (name, child) :: rest =>
            bind (visit' dirPath currentDepth name (dirent_type_of child)
                        (walk_node' child (Path.join dirPath name)
                                   (currentDepth + 1)%Z))
                 (fun ps => bind (for_await rest) (fun qs => ret (ps ++ qs)))
        end) entries)
    (flat_map
       (fun e =>
          if descends' (Path.join dirPath (fst e)) (dirent_type_of (snd e))
                      currentDepth
          then [walk_node' (snd e) (Path.join dirPath (fst e))
                          (currentDepth + 1)%Z]
          else []) entries)
    (flat_map
       (fun e => option_list (collected' (Path.join dirPath (fst e))
                                        (dirent_type_of (snd e)))) entries)
    (map (fun e => EvDirent (Path.join dirPath (fst e))
                            (dirent_type_of (snd e)) currentDepth) entries).
Proof.
  induction entries as [|[name child] rest IH].
  - apply runs_ret.
  - eapply runs_eq.
    + eapply runs_bind; [apply runs_visit|].
      eapply runs_bind; [apply IH | apply runs_ret].
    + cbn [flat_map fst snd]. rewrite app_nil_r. reflexivity.
    + cbn [map fst snd app]. rewrite app_nil_r. reflexivity.
Qed.

(** The sub-walks that were scheduled. *)
Lemma runs_sub_walks dirPath currentDepth entries :
  Forall (fun e => forall dirPath currentDepth,
              runs (walk_node' (snd e) dirPath currentDepth) tt
                   (walk_results' (snd e) dirPath currentDepth)
                   (walk_trace' (snd e) dirPath currentDepth)) entries ->
  runs
    (promise_all
       (flat_map
          (fun e =>
             if descends' (Path.join dirPath (fst e)) (dirent_type_of (snd e))
                         currentDepth
             then [walk_node' (snd e) (Path.join dirPath (fst e))
                             (currentDepth + 1)%Z]
             else []) entries))
    tt
    (flat_map
       (fun e =>
          if descends' (Path.join dirPath (fst e)) (dirent_type_of (snd e))
                      currentDepth
          then walk_results' (snd e) (Path.join dirPath (fst e))
                            (currentDepth + 1)%Z
          else []) entries)
    (flat_map
       (fun e =>
          if descends' (Path.join dirPath (fst e)) (dirent_type_of (snd e))
                      currentDepth
          then walk_trace' (snd e) (Path.join dirPath (fst e))
                          (currentDepth + 1)%Z
          else []) entries).
Proof.
  induction 1 as [|e rest He _ IH].
  - apply runs_ret.
  - cbn [flat_map].
    destruct (descends' (Path.join dirPath (fst e)) (dirent_type_of (snd e))
                       currentDepth).
    + cbn [app]. apply runs_promise_all_cons; [apply He | exact IH].
    + exact IH.
Qed.

Lemma walk_results_entries t entries dirPath currentDepth :
  depth_gt currentDepth (maxDepth options) = false ->
  walk_results' (Node t (Some entries)) dirPath currentDepth =
  flat_map (fun e => option_list (collected' (Path.join dirPath (fst e))
                                            (dirent_type_of (snd e)))) entries
  ++ flat_map
       (fun e =>
          if descends' (Path.join dirPath (fst e)) (dirent_type_of (snd e))
                      currentDepth
          then walk_results' (snd e) (Path.join dirPath (fst e))
                            (currentDepth + 1)%Z
          else []) entries.
Proof.
  intro Hd. unfold walk_results at 1. cbn [listed].
  rewrite Hd, flat_map_app, flat_map_flat_map. f_equal.
  - induction entries as [|e rest IH]; [reflexivity|].
    cbn [map flat_map fst snd]. rewrite IH. reflexivity.
  - apply flat_map_ext. intro e.
    destruct (descends' (Path.join dirPath (fst e)) (dirent_type_of (snd e))
                       currentDepth); reflexivity.
Qed.

(** [walk] never throws; it appends what its readings say. *)
Lemma runs_walk_node n :
  forall dirPath currentDepth,
    runs (walk_node' n dirPath currentDepth) tt
         (walk_results' n dirPath currentDepth)
         (walk_trace' n dirPath currentDepth).
Proof.
  induction n as [t|t entries IH] using node_induction;
    intros dirPath currentDepth.
  - unfold walk_results.
    cbn [walk_node listed walk_trace].
    destruct (depth_gt currentDepth (maxDepth options)); [apply runs_ret|].
    eapply runs_eq.
    + eapply runs_catch; [|apply runs_emit].
      eapply throws_bind; [apply runs_emit | apply throws_throw].
    + reflexivity.
    + reflexivity.
  - destruct (depth_gt currentDepth (maxDepth options)) eqn:Hd.
    + unfold walk_results.
      cbn [walk_node listed walk_trace].
      rewrite Hd. apply runs_ret.
    + rewrite walk_results_entries by exact Hd.
      cbn [walk_node walk_trace]. rewrite Hd.
      eapply runs_eq.
      * apply runs_try.
        eapply runs_bind; [apply runs_emit|].
        eapply runs_bind; [apply runs_for_await|].
        apply runs_sub_walks. exact IH.
      * reflexivity.
      * reflexivity.
Qed.

End WalkRuns.

(** ** [find] does what the readings of its walk say *)

Section FindRuns.

Lemma regex_of_compiles pattern : globToRegex pattern = Some (regex_of pattern).
Proof.
  unfold regex_of. rewrite globToRegex_compiles. reflexivity.
Qed.

Lemma runs_globToRegexM pattern :
  runs (globToRegexM pattern) (regex_of pattern) [] [].
Proof.
  unfold globToRegexM. rewrite regex_of_compiles. apply runs_ret.
Qed.

Lemma runs_mapM_globToRegexM patterns :
  runs (mapM globToRegexM patterns) (map regex_of patterns) [] [].
Proof.
  induction patterns as [|p ps IH]; [apply runs_ret|].
  cbn [mapM map].
  eapply runs_eq.
  - eapply runs_bind; [apply runs_globToRegexM|].
    eapply runs_bind; [apply IH | apply runs_ret].
  - reflexivity.
  - reflexivity.
Qed.

Lemma runs_loadGitignore w :
  runs (loadGitignore w) (gitignore_lines w) [] [].
Proof.
  unfold loadGitignore, gitignore_lines. destruct (gitignore w).
  - apply runs_try. apply runs_ret.
  - eapply runs_eq.
    + eapply runs_catch; [apply throws_throw | apply runs_ret].
    + reflexivity.
    + reflexivity.
Qed.

Lemma runs_classify_ignores ignoreList :
  runs (classify_ignores ignoreList)
       (deny_matchers (map normalize_slashes ignoreList),
        override_matchers (map normalize_slashes ignoreList)) [] [].
Proof.
  induction ignoreList as [|ign rest IH]; [apply runs_ret|].
  cbn [classify_ignores map].
  change (JsString.startsWith (lit "!") (normalize_slashes ign))
    with (is_override (normalize_slashes ign)).
  unfold deny_matchers, override_matchers in *. cbn [filter].
  destruct (is_override (normalize_slashes ign)); cbn [negb map].
  - eapply runs_eq.
    + eapply runs_bind; [apply runs_globToRegexM|].
      eapply runs_bind; [apply IH | apply runs_ret].
    + reflexivity.
    + reflexivity.
  - eapply runs_eq.
    + eapply runs_bind; [apply runs_globToRegexM|].
      eapply runs_bind; [apply IH | apply runs_ret].
    + reflexivity.
    + reflexivity.
Qed.

Lemma find_body_initial pf w patterns options :
  find_body pf w patterns options initial =
  (inr (find_results pf w patterns options),
   {| results := find_results pf w patterns options;
      trace := walk_trace pf options (find_deny w options)
                          (find_override w options)
                          (Node DT_Dir (root w)) [] 0%Z |}).
Proof.
  unfold find_body.
  unfold bind at 1. rewrite runs_mapM_globToRegexM.
  assert (G : runs (if useGitignore options then loadGitignore w else ret [])
                   (if useGitignore options then gitignore_lines w else [])
                   [] []).
  { destruct (useGitignore options); [apply runs_loadGitignore | apply runs_ret]. }
  unfold bind at 1. rewrite G.
  unfold bind at 1. rewrite runs_classify_ignores.
  unfold bind at 1. unfold walk. rewrite runs_walk_node.
  unfold get_results. cbn [results trace initial app fst snd].
  reflexivity.
Qed.

(** [find] always resolves, to the results of the walk. *)
Lemma find_resolves pf w patterns options :
  find pf w patterns options = Resolved (find_results pf w patterns options).
Proof. unfold find. rewrite find_body_initial. reflexivity. Qed.

Lemma find_trace_walk pf w patterns options :
  find_trace pf w patterns options =
  walk_trace pf options (find_deny w options) (find_override w options)
             (Node DT_Dir (root w)) [] 0%Z.
Proof. unfold find_trace. rewrite find_body_initial. reflexivity. Qed.

End FindRuns.

(** ** What the walker reads: depths, paths and types *)

Lemma in_flat_map_if {A B} (c : A -> bool) (f : A -> list B) l x :
  In x (flat_map (fun e => if c e then f e else []) l) <->
  exists e, In e l /\ c e = true /\ In x (f e).
Proof.
  rewrite in_flat_map. split.
  - intros (e & He & Hx). destruct (c e) eqn:C; [|destruct Hx].
    exists e. auto.
  - intros (e & He & C & Hx). exists e. rewrite C. auto.
Qed.

Section Listed.

Variable pf : Path.platform.
Variable baseDir : str.
Variable options : GlobOptions.
Variables matchers ignoreMatchers ignoreNegMatchers : list RegExp.re.

Local Abbreviation descends' := (descends pf options ignoreMatchers ignoreNegMatchers).
Local Abbreviation listed' := (listed pf options ignoreMatchers ignoreNegMatchers).
Local Abbreviation walk_trace' := (walk_trace pf options ignoreMatchers ignoreNegMatchers).

Lemma in_listed n dirPath d x :
  In x (listed' n dirPath d) <->
  depth_gt d (maxDepth options) = false /\
  exists entries, listing_of n = Some entries /\
    ((exists e, In e entries /\
                x = (Path.join dirPath (fst e), dirent_type_of (snd e), d)) \/
     (exists e, In e entries /\
                descends' (Path.join dirPath (fst e)) (dirent_type_of (snd e)) d = true /\
                In x (listed' (snd e) (Path.join dirPath (fst e)) (d + 1)%Z))).
Proof.
  destruct n as [t [entries|]]; cbn [listed listing_of];
    destruct (depth_gt d (maxDepth options)).
  - split; [intros [] | intros [? _]; discriminate].
  - rewrite in_app_iff, in_map_iff, in_flat_map_if. split.
    + intros [(e & <- & He)|(e & He & C & Hx)]; (split; [reflexivity|]);
        exists entries; (split; [reflexivity|]); [left|right]; exists e; auto.
    + intros (_ & es & [= <-] & [(e & He & ->)|(e & He & C & Hx)]);
        [left|right]; exists e; auto.
  - split; [intros [] | intros [? _]; discriminate].
  - split; [intros [] | intros (_ & es & [=] & _)].
Qed.

Lemma in_walk_trace n dirPath d ev :
  In ev (walk_trace' n dirPath d) <->
  depth_gt d (maxDepth options) = false /\
  (ev = EvOpendir dirPath d \/
   (listing_of n = None /\ ev = EvError dirPath) \/
   exists entries, listing_of n = Some entries /\
     ((exists e, In e entries /\
                 ev = EvDirent (Path.join dirPath (fst e))
                               (dirent_type_of (snd e)) d) \/
      (exists e, In e entries /\
                 descends' (Path.join dirPath (fst e)) (dirent_type_of (snd e)) d = true /\
                 In ev (walk_trace' (snd e) (Path.join dirPath (fst e)) (d + 1)%Z)))).
Proof.
  destruct n as [t [entries|]]; cbn [walk_trace listing_of];
    destruct (depth_gt d (maxDepth options)).
  - split; [intros [] | intros [? _]; discriminate].
  - cbn [In]. rewrite in_app_iff, in_map_iff, in_flat_map_if. split.
    + intros [<-|[(e & <- & He)|(e & He & C & Hx)]];
        (split; [reflexivity|]); [left; reflexivity|right; right..];
        exists entries; (split; [reflexivity|]); [left|right]; exists e; auto.
    + intros (_ & [->|[[[=] _]|(es & [= <-] & [(e & He & ->)|(e & He & C & Hx)])]]);
        [left; reflexivity | right; left | right; right]; exists e; auto.
  - split; [intros [] | intros [? _]; discriminate].
  - cbn [In]. split.
    + intros [<-|[<-|[]]]; (split; [reflexivity|]); auto.
    + intros (_ & [->|[[_ ->]|(es & [=] & _)]]); auto.
Qed.

(** The entries handed to the loop are the entries read in the trace. *)
Lemma dirent_listed n :
  forall dirPath d p t d',
    In (EvDirent p t d') (walk_trace' n dirPath d) <->
    In (p, t, d') (listed' n dirPath d).
Proof.
  induction n as [t0|t0 entries IH] using node_induction;
    intros dirPath d p t d'; rewrite in_walk_trace, in_listed; cbn [listing_of].
  - split.
    + intros (_ & [[=]|[[_ [=]]|(es & [=] & _)]]).
    + intros (_ & es & [=] & _).
  - rewrite Forall_forall in IH. split.
    + intros (Hd & [[=]|[[[=] _]|(es & [= <-] & [(e & He & [= -> -> ->])|(e & He & C & Hx)])]]);
        (split; [exact Hd|]); exists entries; (split; [reflexivity|]).
      * left. exists e. auto.
      * right. exists e. repeat split; auto. apply IH; auto.
    + intros (Hd & es & [= <-] & [(e & He & [= -> -> ->])|(e & He & C & Hx)]);
        (split; [exact Hd|]); right; right; exists entries;
        (split; [reflexivity|]).
      * left. exists e. auto.
      * right. exists e. repeat split; auto. apply IH; auto.
Qed.

(** Where a listed entry lies: below the directory the walk started
    from, at a depth that passed the bound. *)
Lemma listed_reaches n :
  forall dirPath d p t d',
    In (p, t, d') (listed' n dirPath d) ->
    exists rel child,
      p = dirPath ++ rel /\ reaches n rel child /\ t = dirent_type_of child /\
      d' = (d + Z.of_nat (length rel) - 1)%Z /\
      depth_gt d' (maxDepth options) = false.
Proof.
  induction n as [t0|t0 entries IH] using node_induction;
    intros dirPath d p t d' H; apply in_listed in H; cbn [listing_of] in H.
  - destruct H as (_ & es & [=] & _).
  - rewrite Forall_forall in IH.
    destruct H as (Hd & es & [= <-] & [(e & He & [= -> -> ->])|(e & He & C & Hx)]).
    + destruct e as [name child]. exists [name], child. cbn [fst snd length].
      repeat split; auto.
      * constructor. exact He.
      * lia.
    + apply (IH e He) in Hx as (rel & child & -> & Hr & -> & -> & Hd').
      destruct e as [name child0]. cbn [fst snd] in *.
      exists (name :: rel), child. unfold Path.join.
      rewrite <- app_assoc. cbn [app length]. repeat split; auto.
      * eapply reaches_below; eauto.
      * lia.
Qed.

(** A directory is opened either as the start of the walk or because the
    loop read it as a directory entry, did not ignore it, and was not at
    the depth bound. *)
Lemma opendir_listed n :
  forall dirPath d p d',
    In (EvOpendir p d') (walk_trace' n dirPath d) ->
    depth_gt d' (maxDepth options) = false /\
    ((p = dirPath /\ d' = d) \/
     (In (p, DT_Dir, (d' - 1)%Z) (listed' n dirPath d) /\
      descends' p DT_Dir (d' - 1)%Z = true)).
Proof.
  induction n as [t0|t0 entries IH] using node_induction;
    intros dirPath d p d' H; apply in_walk_trace in H; cbn [listing_of] in H.
  - destruct H as (Hd & [[= -> ->]|[[_ [=]]|(es & [=] & _)]]). auto.
  - rewrite Forall_forall in IH.
    destruct H as (Hd & [[= -> ->]|[[[=] _]|(es & [= <-] & [(e & He & [=])|(e & He & C & Hx)])]]).
    + auto.
    + apply (IH e He) in Hx as (Hd' & [[-> ->]|[Hl Hdesc]]).
      * split; [exact Hd'|]. right.
        replace (d + 1 - 1)%Z with d by lia.
        assert (T : dirent_type_of (snd e) = DT_Dir).
        { unfold descends in C. destruct (dirent_type_of (snd e)); congruence. }
        rewrite T in C. split; [|exact C].
        apply in_listed. split; [exact Hd|]. exists entries.
        split; [reflexivity|]. left. exists e. rewrite T. auto.
      * split; [exact Hd'|]. right. split; [|exact Hdesc].
        apply in_listed. split; [exact Hd|]. exists entries.
        split; [reflexivity|]. right. exists e. auto.
Qed.

End Listed.

(** ** Paths and names *)

Lemma split_nonempty c s : JsString.split c s <> [].
Proof.
  destruct s as [|x s]; cbn [JsString.split]; [discriminate|].
  destruct (Ascii.eqb x c); [discriminate|].
  destruct (JsString.split c s); discriminate.
Qed.

(** Splitting at a separator and joining with the same one is the
    identity. *)
Lemma join_split c s : JsString.join [c] (JsString.split c s) = s.
Proof.
  induction s as [|x s IH]; [reflexivity|].
  cbn [JsString.split].
  destruct (Ascii.eqb_spec x c) as [->|N].
  - pose proof (split_nonempty c s) as Hne.
    destruct (JsString.split c s) as [|w ws]; [congruence|].
    change (JsString.join [c] ([] :: w :: ws))
      with (c :: JsString.join [c] (w :: ws)).
    rewrite IH. reflexivity.
  - pose proof (split_nonempty c s) as Hne.
    destruct (JsString.split c s) as [|w ws]; [congruence|].
    rewrite <- IH. destruct ws; reflexivity.
Qed.

Section Names.

Variable pf : Path.platform.

Lemma str_eqb_eq a b : str_eqb a b = true <-> a = b.
Proof. unfold str_eqb. destruct (list_eq_dec ascii_dec a b); split; congruence. Qed.

Lemma good_name_spec name :
  good_name pf name = true -> name <> [] /\ ~ In (Path.sep pf) name.
Proof.
  unfold good_name. intro H. apply andb_prop in H as [Hne Hall]. split.
  - intros ->. discriminate Hne.
  - intro Hin. rewrite forallb_forall in Hall. specialize (Hall _ Hin).
    apply andb_prop in Hall as [_ Hs]. rewrite Ascii.eqb_refl in Hs.
    discriminate Hs.
Qed.

Lemma app_sep_inj (c : ascii) a a' b b' :
  ~ In c a -> ~ In c a' -> a ++ c :: b = a' ++ c :: b' -> a = a' /\ b = b'.
Proof.
  revert a'. induction a as [|x a IH]; intros [|x' a'] Ha Ha' E; cbn in *.
  - injection E as <-. auto.
  - injection E as <- _. tauto.
  - injection E as -> _. tauto.
  - injection E as <- E. apply IH in E as [<- <-]; tauto.
Qed.

Lemma relative_cons name rest :
  rest <> [] ->
  Path.relative pf (name :: rest) = name ++ Path.sep pf :: Path.relative pf rest.
Proof. destruct rest; [congruence | reflexivity]. Qed.

Lemma relative_nonempty rel :
  Forall (fun name => good_name pf name = true) rel -> rel <> [] ->
  Path.relative pf rel <> [].
Proof.
  destruct 1 as [|name rest Hn _]; [congruence|]. intros _.
  apply good_name_spec in Hn as [Hne _].
  destruct rest as [|y rest]; [exact Hne|].
  rewrite relative_cons by discriminate.
  destruct name; [congruence | discriminate].
Qed.

(** Distinct lists of names have distinct relative paths. *)
Lemma relative_inj rel1 :
  forall rel2,
    Forall (fun name => good_name pf name = true) rel1 ->
    Forall (fun name => good_name pf name = true) rel2 ->
    rel1 <> [] -> rel2 <> [] ->
    Path.relative pf rel1 = Path.relative pf rel2 -> rel1 = rel2.
Proof.
  induction rel1 as [|w1 rest1 IH]; intros rel2 G1 G2 N1 N2 E; [congruence|].
  destruct rel2 as [|w2 rest2]; [congruence|].
  inversion G1 as [|? ? Gw1 Gr1]; subst. inversion G2 as [|? ? Gw2 Gr2]; subst.
  apply good_name_spec in Gw1 as [_ S1]. apply good_name_spec in Gw2 as [_ S2].
  destruct rest1 as [|x1 r1]; destruct rest2 as [|x2 r2].
  - cbn in E. congruence.
  - rewrite (relative_cons w2) in E by discriminate. cbn in E. subst w1.
    exfalso. apply S1. apply in_or_app. right. left. reflexivity.
  - rewrite (relative_cons w1) in E by discriminate. cbn in E. subst w2.
    exfalso. apply S2. apply in_or_app. right. left. reflexivity.
  - rewrite (relative_cons w1), (relative_cons w2) in E by discriminate.
    apply app_sep_inj in E as [-> E]; auto.
    f_equal. apply IH; auto; discriminate.
Qed.

(** [path.resolve(baseDir, _)] keeps relative paths apart. *)
Lemma resolve_inj baseDir r1 r2 :
  Path.resolve pf baseDir r1 = Path.resolve pf baseDir r2 -> r1 = r2.
Proof.
  unfold Path.resolve.
  destruct r1 as [|x1 r1]; destruct r2 as [|x2 r2]; [reflexivity|..];
    destruct (rev baseDir) as [|c ?]; try destruct (Ascii.eqb c (Path.sep pf));
    intro E.
  all: try (apply (f_equal (@length ascii)) in E;
            rewrite ?length_app in E; cbn in E; lia).
  all: apply app_inv_head in E; cbn in E; congruence.
Qed.

Lemma pushed_path_inj baseDir options r1 r2 :
  pushed_path pf baseDir options r1 = pushed_path pf baseDir options r2 ->
  r1 = r2.
Proof.
  unfold pushed_path. destruct (absolute options); [apply resolve_inj | auto].
Qed.

Lemma distinct_lookup (entries : list (str * node)) name c1 c2 :
  distinct (map fst entries) = true ->
  In (name, c1) entries -> In (name, c2) entries -> c1 = c2.
Proof.
  induction entries as [|[n0 c0] rest IH]; cbn [map fst distinct In];
    [tauto|].
  intros D H1 H2. apply andb_prop in D as [Dn Dr].
  assert (Fresh : forall c, In (name, c) rest -> n0 <> name).
  { intros c Hc ->. apply negb_true_iff in Dn.
    assert (T : existsb (str_eqb name) (map fst rest) = true); [|congruence].
    apply existsb_exists. exists name.
    split; [|apply str_eqb_eq; reflexivity].
    apply in_map_iff. exists (name, c). auto. }
  destruct H1 as [E1|H1]; destruct H2 as [E2|H2]; auto.
  - congruence.
  - exfalso. apply (Fresh _ H2). congruence.
  - exfalso. apply (Fresh _ H1). congruence.
Qed.

Lemma good_node_entries t entries :
  good_node pf (Node t (Some entries)) = true ->
  distinct (map fst entries) = true /\
  forall name child, In (name, child) entries ->
    good_name pf name = true /\ good_node pf child = true.
Proof.
  cbn [good_node]. intro G.
  apply andb_prop in G as [G Gc]. apply andb_prop in G as [Gn Gd].
  split; [exact Gd|]. intros name child Hin.
  rewrite forallb_forall in Gn, Gc. split.
  - apply Gn. apply in_map_iff. exists (name, child). auto.
  - exact (Gc _ Hin).
Qed.

Lemma reaches_good n rel child :
  reaches n rel child -> good_node pf n = true ->
  Forall (fun name => good_name pf name = true) rel /\ rel <> [].
Proof.
  induction 1 as [t entries name child Hin|t entries name child rel n' Hin _ IH];
    intro G; apply good_node_entries in G as [_ G];
    destruct (G _ _ Hin) as [Gn Gc].
  - split; [repeat constructor; exact Gn | discriminate].
  - split; [|discriminate]. constructor; [exact Gn | apply IH; exact Gc].
Qed.

Lemma reaches_nonempty n child : ~ reaches n [] child.
Proof. intro H. inversion H. Qed.

(** In a tree with distinct names, a path leads to one entry. *)
Lemma reaches_unique n rel c1 :
  reaches n rel c1 -> good_node pf n = true ->
  forall c2, reaches n rel c2 -> c1 = c2.
Proof.
  induction 1 as [t entries name child Hin|t entries name child rel n' Hin Hr IH];
    intros G c2 H2; apply good_node_entries in G as [D G];
    inversion H2 as [? ? ? ? Hin2|? ? ? child2 ? ? Hin2 Hr2]; subst.
  - eapply distinct_lookup; eauto.
  - exfalso. eapply reaches_nonempty; eauto.
  - exfalso. eapply reaches_nonempty; eauto.
  - assert (child = child2) by (eapply distinct_lookup; eauto). subst child2.
    apply IH; auto. exact (proj2 (G _ _ Hin)).
Qed.

End Names.

(** ** The results and the trace of [find] *)

Section FindFacts.

Variable pf : Path.platform.
Variable w : world.
Variable patterns : one_or_many.
Variable options : GlobOptions.

Local Abbreviation results' := (find_results pf w patterns options).
Local Abbreviation listed' := (find_listed pf w options).
Local Abbreviation trace' := (find_trace pf w patterns options).
Local Abbreviation collected' := (find_collected pf w patterns options).
Local Abbreviation ignored' := (find_ignored pf w options).
Local Abbreviation matched' := (find_matched pf patterns).
Local Abbreviation pushed' := (find_pushed_for pf options).

Lemma collected_some p t x :
  collected' p t = Some x <->
  ignored' p = false /\ eligible options t = true /\
  passes_extension_filter options t (last p []) = true /\
  matched' p = true /\ x = pushed' p.
Proof.
  unfold find_collected, collected, find_ignored, find_matched, find_pushed_for.
  destruct (ignored pf _ _ p); [split; [discriminate | intros [? _]; discriminate]|].
  destruct (eligible options t); cbn [andb];
    [|split; [discriminate | intros (_ & ? & _); discriminate]].
  destruct (passes_extension_filter options t (last p [])); cbn [andb];
    [|split; [discriminate | intros (_ & _ & ? & _); discriminate]].
  destruct (matched pf (matchers_of patterns) p);
    [|split; [discriminate | intros (_ & _ & _ & ? & _); discriminate]].
  split; [intros [= <-]; auto | intros (_ & _ & _ & _ & ->); reflexivity].
Qed.

Lemma in_find_results x :
  In x results' <-> exists p t d, In (p, t, d) listed' /\ collected' p t = Some x.
Proof.
  unfold find_results, walk_results. rewrite in_flat_map. split.
  - intros ([[p t] d] & Hl & Hx). cbn [fst snd] in Hx.
    exists p, t, d. split; [exact Hl|].
    fold (find_collected pf w patterns options p t) in Hx.
    destruct (collected' p t) as [y|]; [|destruct Hx].
    destruct Hx as [->|[]]. reflexivity.
  - intros (p & t & d & Hl & Hc). exists (p, t, d). split; [exact Hl|].
    cbn [fst snd]. fold (find_collected pf w patterns options p t).
    rewrite Hc. left. reflexivity.
Qed.

Lemma find_dirent_listed p t d :
  In (EvDirent p t d) trace' <-> In (p, t, d) listed'.
Proof. rewrite find_trace_walk. apply dirent_listed. Qed.

Lemma find_listed_reaches p t d :
  In (p, t, d) listed' ->
  exists child,
    reaches (Node DT_Dir (root w)) p child /\ t = dirent_type_of child /\
    d = (Z.of_nat (length p) - 1)%Z /\
    depth_gt d (maxDepth options) = false.
Proof.
  intro H. apply listed_reaches in H as (rel & child & -> & Hr & -> & -> & Hd).
  exists child. cbn [app]. repeat split; auto.
Qed.

Lemma find_opendir_listed p d :
  In (EvOpendir p d) trace' ->
  depth_gt d (maxDepth options) = false /\
  ((p = [] /\ d = 0%Z) \/
   (In (p, DT_Dir, (d - 1)%Z) listed' /\
    ignored' p = false /\ depth_lt (d - 1) (maxDepth options) = true)).
Proof.
  rewrite find_trace_walk. intro H.
  apply opendir_listed in H as (Hd & [H|[Hl Hdesc]]); split; auto.
  right. split; [exact Hl|]. unfold descends in Hdesc.
  apply andb_prop in Hdesc as [Hi Hlt]. apply negb_true_iff in Hi. auto.
Qed.

(** An entry that is pushed determines its [relPathUnix]. *)
Lemma pushed_same_unix p q :
  pushed' p = pushed' q -> relPathUnix_of pf p = relPathUnix_of pf q.
Proof.
  unfold find_pushed_for, pushed_for, relPathUnix_of. intro E.
  apply pushed_path_inj in E. rewrite E. reflexivity.
Qed.

Lemma find_matched_spec p :
  matched' p = true <->
  exists P r, In P (to_array patterns) /\
              globToRegex (normalize_slashes P) = Some r /\
              RegExp.test r (relPathUnix_of pf p) = true.
Proof.
  unfold find_matched, matched, some, matchers_of.
  rewrite existsb_exists. split.
  - intros (r & Hr & Ht). apply in_map_iff in Hr as (P' & <- & HP').
    apply in_map_iff in HP' as (P & <- & HP).
    exists P, (regex_of (normalize_slashes P)).
    split; [exact HP|]. split; [apply regex_of_compiles | exact Ht].
  - intros (P & r & HP & Hc & Ht). exists r. split; [|exact Ht].
    rewrite regex_of_compiles in Hc. injection Hc as <-.
    apply in_map. apply in_map. exact HP.
Qed.

End FindFacts.

(* ================================================================== *)
(** * Part III: the claims *)
(* ================================================================== *)

(** C1, amended. Every entry the walker reads that is not ignored, is
    eligible under [type] and, for a file, passes the extension filter, is
    in the results iff one of the compiled patterns matches its
    base-relative path with forward slashes.  Every result is the path of
    such an entry: relative to the base directory with the separator of the
    platform (the POSIX form on a POSIX host), or resolved against the base
    directory when [absolute] is set. *)
Theorem find_collects_matching_entries pf w patterns options paths :
  find pf w patterns options = Resolved paths ->
  (forall p t d,
      In (EvDirent p t d) (find_trace pf w patterns options) ->
      find_ignored pf w options p = false ->
      eligible options t = true ->
      passes_extension_filter options t (last p []) = true ->
      (In (find_pushed_for pf options p) paths <->
       exists P r, In P (to_array patterns) /\
                   globToRegex (normalize_slashes P) = Some r /\
                   RegExp.test r (relPathUnix_of pf p) = true)) /\
  (forall x, In x paths ->
      exists p t d,
        In (EvDirent p t d) (find_trace pf w patterns options) /\
        x = (if absolute options
             then Path.resolve pf (cwd options) (Path.relative pf p)
             else Path.relative pf p)) /\
  (forall p, relPathUnix_of Path.Posix p = Path.relative Path.Posix p).
Proof.
  rewrite find_resolves. intros [= <-]. split; [|split].
  - intros p t d Hev Hi He Hx. rewrite <- find_matched_spec. split.
    + intro Hin. apply in_find_results in Hin as (q & t' & d' & _ & Hc).
      apply collected_some in Hc as (_ & _ & _ & Hm & E).
      unfold find_matched, matched in *.
      rewrite (pushed_same_unix pf options _ _ E). exact Hm.
    + intro Hm. apply in_find_results. exists p, t, d.
      split; [apply (find_dirent_listed pf w patterns options); exact Hev|].
      apply collected_some. auto.
  - intros x Hin. apply in_find_results in Hin as (p & t & d & Hl & Hc).
    apply collected_some in Hc as (_ & _ & _ & _ & ->).
    exists p, t, d.
    split; [apply (find_dirent_listed pf w patterns options); exact Hl|].
    reflexivity.
  - intro p. unfold relPathUnix_of, to_unix. cbn [Path.sep].
    apply join_split.
Qed.

Lemma find_collects_matching_entries_witness :
  find Path.Posix tree_ts (One (lit "**/*.ts")) (defaults posix_base)
  = Resolved [lit "a.ts"; lit "sub/c.ts"] /\
  (In (find_pushed_for Path.Posix (defaults posix_base) [lit "sub"; lit "c.ts"])
      [lit "a.ts"; lit "sub/c.ts"] <->
   exists P r, In P (to_array (One (lit "**/*.ts"))) /\
               globToRegex (normalize_slashes P) = Some r /\
               RegExp.test r (relPathUnix_of Path.Posix [lit "sub"; lit "c.ts"]) = true).
Proof.
  split; [reflexivity|].
  apply (proj1 (find_collects_matching_entries Path.Posix tree_ts
                  (One (lit "**/*.ts")) (defaults posix_base)
                  [lit "a.ts"; lit "sub/c.ts"] eq_refl)
               [lit "sub"; lit "c.ts"] DT_File 1%Z).
  - vm_compute. tauto.
  - reflexivity.
  - reflexivity.
  - reflexivity.
Defined.

(** C1, as stated, fails on a Windows host: the relative path that is
    pushed keeps the separator of the platform, so the result for
    [sub/c.ts] is not the POSIX form of the path of any entry. *)
Lemma find_win32_result_not_posix :
  ~ (forall paths x,
        find Path.Win32 tree_ts (One (lit "**/*.ts")) (defaults win32_base)
        = Resolved paths ->
        In x paths ->
        exists p t d,
          In (EvDirent p t d)
             (find_trace Path.Win32 tree_ts (One (lit "**/*.ts"))
                         (defaults win32_base)) /\
          x = relPathUnix_of Path.Win32 p).
Proof.
  intro H.
  destruct (H [lit "a.ts"; lit "sub" ++ [backslash] ++ lit "c.ts"]
              (lit "sub" ++ [backslash] ++ lit "c.ts") eq_refl)
    as (p & t & d & Hev & Hx).
  - right. left. reflexivity.
  - vm_compute in Hev.
    repeat (destruct Hev as [E|Hev];
            [try discriminate E;
             injection E as <- _ _; vm_compute in Hx; discriminate Hx|]).
    destruct Hev.
Qed.

(** ** C2: [globToRegex] *)

(** [globToRegex] never throws; the expression it builds is anchored and
    accepts a path without line terminators iff the whole path satisfies
    the glob semantics of the pattern. *)
Theorem globToRegex_glob_semantics pattern p :
  forallb (fun c => negb (RegExp.is_line_terminator c)) p = true ->
  exists r, globToRegex pattern = Some r /\
            (RegExp.test r p = true <-> GlobSpec.spec_matches pattern p).
Proof.
  intro Hp. destruct (globToRegex_accepts pattern) as (r & Hr & Hacc).
  exists r. split; [exact Hr|]. rewrite Hacc. split.
  - apply code_matches_spec.
  - apply spec_matches_code. exact Hp.
Qed.

Lemma globToRegex_glob_semantics_witness :
  forallb (fun c => negb (RegExp.is_line_terminator c)) (lit "src/index.js") = true /\
  exists r, globToRegex (lit "**/*.js") = Some r /\
            (RegExp.test r (lit "src/index.js") = true <->
             GlobSpec.spec_matches (lit "**/*.js") (lit "src/index.js")).
Proof.
  split; [reflexivity|].
  apply (globToRegex_glob_semantics (lit "**/*.js") (lit "src/index.js")).
  reflexivity.
Defined.

(** The empty pattern compiles to an expression that accepts the empty
    string only. *)
Theorem globToRegex_empty_pattern :
  exists r, globToRegex [] = Some r /\
            forall p, RegExp.test r p = true <-> p = [].
Proof.
  destruct (globToRegex_accepts []) as (r & Hr & Hacc).
  exists r. split; [exact Hr|]. intro p. rewrite Hacc. reflexivity.
Qed.

(** C2. A path segment with a line feed in it is a whole path segment,
    but the expression built for the pattern does not accept it: the dot
    of the group written for a star, a star and a slash skips line
    terminators, while the class written for a single star does not.  A
    file [a] in a directory of that name is found by the pattern with one
    star and not by the pattern with two. *)
Theorem globToRegex_segment_with_line_feed :
  GlobSpec.spec_matches (lit "**/a") (lit "d" ++ [newline] ++ lit "/a") /\
  (exists r, globToRegex (lit "**/a") = Some r /\
             RegExp.test r (lit "d" ++ [newline] ++ lit "/a") = false) /\
  (exists r, globToRegex (lit "*/a") = Some r /\
             RegExp.test r (lit "d" ++ [newline] ++ lit "/a") = true) /\
  find Path.Posix tree_line_feed (One (lit "**/a")) (defaults posix_base)
  = Resolved [] /\
  find Path.Posix tree_line_feed (One (lit "*/a")) (defaults posix_base)
  = Resolved [lit "d" ++ [newline] ++ lit "/a"].
Proof.
  split; [|split; [|split; [|split]]].
  - exists (lit "d" ++ [newline] ++ lit "/"), (lit "a").
    split; [reflexivity|]. split.
    + right. exists (lit "d" ++ [newline]). repeat split; discriminate.
    + exists (lit "a"), []. split; [reflexivity|]. split; reflexivity.
  - eexists. split; reflexivity.
  - eexists. split; reflexivity.
  - reflexivity.
  - reflexivity.
Qed.

(** ** C3: [isIgnored] *)

Lemma bool_eq_iff (a b : bool) : (a = true <-> b = true) -> a = b.
Proof.
  destruct a, b; intros [H1 H2]; auto.
  - symmetry. auto.
Qed.

Lemma some_spec matchers p :
  some matchers p = true <-> exists r, In r matchers /\ RegExp.test r p = true.
Proof. unfold some. apply existsb_exists. Qed.

Lemma in_deny_matchers normalized r :
  In r (deny_matchers normalized) <->
  exists P, In P normalized /\ is_override P = false /\ r = regex_of P.
Proof.
  unfold deny_matchers. rewrite in_map_iff. split.
  - intros (P & <- & HP). apply filter_In in HP as [HP Ho].
    apply negb_true_iff in Ho. exists P. auto.
  - intros (P & HP & Ho & ->). exists P. split; [reflexivity|].
    apply filter_In. rewrite Ho. auto.
Qed.

Lemma in_override_matchers normalized r :
  In r (override_matchers normalized) <->
  exists P, In P normalized /\ is_override P = true /\
            r = regex_of (JsString.substring1 P).
Proof.
  unfold override_matchers. rewrite in_map_iff. split.
  - intros (Q & <- & HQ). apply in_map_iff in HQ as (P & <- & HP).
    apply filter_In in HP as [HP Ho]. exists P. auto.
  - intros (P & HP & Ho & ->). exists (JsString.substring1 P).
    split; [reflexivity|]. apply in_map. apply filter_In. auto.
Qed.

Lemma classify_ignores_initial ignoreList :
  fst (classify_ignores ignoreList initial) =
  inr (deny_matchers (map normalize_slashes ignoreList),
       override_matchers (map normalize_slashes ignoreList)).
Proof. rewrite runs_classify_ignores. reflexivity. Qed.

(** C3. With the matchers that the loop of [find] builds from the ignore
    list: a path that an override matcher accepts is not ignored, whatever
    the deny matchers are; a path is ignored iff no override matcher
    accepts it and a deny matcher does; and the order of the ignore list
    does not matter. *)
Theorem isIgnored_override_first ignoreList deny overrides p :
  fst (classify_ignores ignoreList initial) = inr (deny, overrides) ->
  ((exists P r, In P ignoreList /\
                JsString.startsWith (lit "!") (normalize_slashes P) = true /\
                globToRegex (JsString.substring1 (normalize_slashes P)) = Some r /\
                RegExp.test r p = true) ->
   forall any_deny, isIgnored any_deny overrides p = false) /\
  (isIgnored deny overrides p = true <->
   some overrides p = false /\ some deny p = true) /\
  (forall reordered deny' overrides',
      Permutation ignoreList reordered ->
      fst (classify_ignores reordered initial) = inr (deny', overrides') ->
      isIgnored deny' overrides' p = isIgnored deny overrides p).
Proof.
  rewrite classify_ignores_initial. intros [= <- <-]. split; [|split].
  - intros (P & r & HP & Ho & Hr & Ht) any_deny. unfold isIgnored.
    replace (some (override_matchers (map normalize_slashes ignoreList)) p)
      with true; [reflexivity|].
    symmetry. apply some_spec. exists r. split; [|exact Ht].
    apply in_override_matchers. exists (normalize_slashes P).
    split; [apply in_map; exact HP|]. split; [exact Ho|].
    rewrite regex_of_compiles in Hr. congruence.
  - unfold isIgnored.
    destruct (some (override_matchers _) p), (some (deny_matchers _) p);
      split; try discriminate; try tauto; intros [? ?]; discriminate.
  - intros reordered deny' overrides' Hperm.
    rewrite classify_ignores_initial. intros [= <- <-].
    assert (Hin : forall P, In P (map normalize_slashes reordered) <->
                            In P (map normalize_slashes ignoreList)).
    { intro P. split; apply Permutation_in; apply Permutation_map;
        [symmetry|]; exact Hperm. }
    unfold isIgnored.
    replace (some (override_matchers (map normalize_slashes reordered)) p)
      with (some (override_matchers (map normalize_slashes ignoreList)) p).
    replace (some (deny_matchers (map normalize_slashes reordered)) p)
      with (some (deny_matchers (map normalize_slashes ignoreList)) p).
    + reflexivity.
    + apply bool_eq_iff. rewrite !some_spec.
      split; intros (r & Hr & Ht); exists r; (split; [|exact Ht]);
        apply in_deny_matchers in Hr as (P & HP & Ho & ->);
        apply in_deny_matchers; exists P; rewrite Hin in *; auto.
    + apply bool_eq_iff. rewrite !some_spec.
      split; intros (r & Hr & Ht); exists r; (split; [|exact Ht]);
        apply in_override_matchers in Hr as (P & HP & Ho & ->);
        apply in_override_matchers; exists P; rewrite Hin in *; auto.
Qed.

Lemma isIgnored_override_first_witness :
  fst (classify_ignores [lit "*.log"; lit "!keep.log"] initial)
  = inr (deny_matchers [lit "*.log"; lit "!keep.log"],
         override_matchers [lit "*.log"; lit "!keep.log"]) /\
  forall any_deny,
    isIgnored any_deny (override_matchers [lit "*.log"; lit "!keep.log"])
              (lit "keep.log") = false.
Proof.
  split; [reflexivity|].
  apply (proj1 (isIgnored_override_first
                  [lit "*.log"; lit "!keep.log"]
                  (deny_matchers [lit "*.log"; lit "!keep.log"])
                  (override_matchers [lit "*.log"; lit "!keep.log"])
                  (lit "keep.log") eq_refl)).
  exists (lit "!keep.log"), (regex_of (lit "keep.log")).
  split; [right; left; reflexivity|]. repeat split; reflexivity.
Defined.

(** ** C4: the depth bound *)

Lemma reaches_single n name child :
  reaches n [name] child ->
  exists entries, listing_of n = Some entries /\ In (name, child) entries.
Proof.
  intro H. inversion H as [? ? ? ? Hin|? ? ? ? ? ? Hin Hr]; subst.
  - eexists. split; [reflexivity | exact Hin].
  - exfalso. eapply reaches_nonempty; eauto.
Qed.

Lemma reaches_length n rel child : reaches n rel child -> 1 <= length rel.
Proof. destruct 1; cbn; lia. Qed.

(** C4. With [maxDepth] a number [m >= 0]: a directory is opened only at
    a depth [d <= m], which is the number of names that lead to it; an
    entry is read at a depth [d <= m]; a directory other than the base is
    opened only after it was read as a directory entry at a depth below
    [m]; an entry read at depth [m] is never opened; and with [m = 0] only
    the base directory is opened, the entries read are exactly the entries
    of the base directory, and every result is one of them. *)
Theorem walk_depth_bound pf w patterns options m paths :
  maxDepth options = Finite m -> (0 <= m)%Z ->
  find pf w patterns options = Resolved paths ->
  (forall dirPath d,
      In (EvOpendir dirPath d) (find_trace pf w patterns options) ->
      (0 <= d <= m)%Z /\ d = Z.of_nat (length dirPath)) /\
  (forall p t d,
      In (EvDirent p t d) (find_trace pf w patterns options) ->
      (0 <= d <= m)%Z /\ Z.of_nat (length p) = (d + 1)%Z) /\
  (forall dirPath d,
      In (EvOpendir dirPath d) (find_trace pf w patterns options) ->
      dirPath <> [] ->
      In (EvDirent dirPath DT_Dir (d - 1)) (find_trace pf w patterns options) /\
      (d - 1 < m)%Z) /\
  (forall p t,
      In (EvDirent p t m) (find_trace pf w patterns options) ->
      forall d, ~ In (EvOpendir p d) (find_trace pf w patterns options)) /\
  (m = 0%Z ->
   (forall dirPath d,
       In (EvOpendir dirPath d) (find_trace pf w patterns options) ->
       dirPath = []) /\
   (forall p t d,
       In (EvDirent p t d) (find_trace pf w patterns options) <->
       d = 0%Z /\
       exists entries name child,
         root w = Some entries /\ In (name, child) entries /\
         p = [name] /\ t = dirent_type_of child) /\
   (forall x, In x paths ->
       exists entries name child,
         root w = Some entries /\ In (name, child) entries /\
         x = find_pushed_for pf options [name])).
Proof.
  intros Hmax Hm. rewrite find_resolves. intros [= <-].
  assert (Hgt : forall d, depth_gt d (maxDepth options) = false -> (d <= m)%Z).
  { intros d. rewrite Hmax. cbn. intro H. apply Z.ltb_ge in H. exact H. }
  assert (Hdir : forall p t d,
             In (EvDirent p t d) (find_trace pf w patterns options) ->
             (0 <= d <= m)%Z /\ Z.of_nat (length p) = (d + 1)%Z /\
             exists child, reaches (Node DT_Dir (root w)) p child /\
                           t = dirent_type_of child).
  { intros p t d H. apply find_dirent_listed in H.
    apply find_listed_reaches in H as (child & Hr & Ht & Hd & Hg).
    pose proof (reaches_length _ _ _ Hr). apply Hgt in Hg.
    repeat split; try lia. exists child. auto. }
  assert (Hopen : forall dirPath d,
             In (EvOpendir dirPath d) (find_trace pf w patterns options) ->
             (0 <= d <= m)%Z /\ d = Z.of_nat (length dirPath)).
  { intros dirPath d H.
    apply find_opendir_listed in H as (Hg & [[-> ->]|(Hl & _ & _)]).
    - cbn. lia.
    - apply Hgt in Hg.
      apply find_listed_reaches in Hl as (child & Hr & _ & Hd & _).
      pose proof (reaches_length _ _ _ Hr). lia. }
  split; [exact Hopen|]. split; [|split; [|split]].
  - intros p t d H. apply Hdir in H as (? & ? & _). auto.
  - intros dirPath d H Hne.
    apply find_opendir_listed in H as (_ & [[-> _]|(Hl & _ & Hlt)]);
      [congruence|].
    split; [apply find_dirent_listed; exact Hl|].
    rewrite Hmax in Hlt. cbn in Hlt. apply Z.ltb_lt in Hlt. exact Hlt.
  - intros p t H d Ho.
    apply Hdir in H as (_ & Hlen & _). apply Hopen in Ho as (Hd & ->). lia.
  - intros ->. split; [|split].
    + intros dirPath d H. apply Hopen in H as (Hd & ->).
      destruct dirPath; [reflexivity | cbn in Hd; lia].
    + intros p t d. split.
      * intro H. apply Hdir in H as (Hd & Hlen & child & Hr & ->).
        assert (d = 0%Z) by lia. subst d. split; [reflexivity|].
        destruct p as [|name [|? ?]]; cbn in Hlen; try lia.
        apply reaches_single in Hr as (entries & He & Hin).
        exists entries, name, child. auto.
      * intros (-> & entries & name & child & Hroot & Hin & -> & ->).
        apply find_dirent_listed. unfold find_listed. apply in_listed.
        split; [rewrite Hmax; reflexivity|].
        exists entries. split; [exact Hroot|]. left.
        exists (name, child). auto.
    + intros x Hx. apply in_find_results in Hx as (p & t & d & Hl & Hc).
      apply collected_some in Hc as (_ & _ & _ & _ & ->).
      apply (proj2 (find_dirent_listed pf w patterns options p t d)) in Hl.
      apply Hdir in Hl as (Hd & Hlen & child & Hr & ->).
      destruct p as [|name [|? ?]]; cbn in Hlen; try lia.
      apply reaches_single in Hr as (entries & He & Hin).
      exists entries, name, child. auto.
Qed.

Lemma walk_depth_bound_witness :
  maxDepth (with_maxDepth (Finite 0) (defaults posix_base)) = Finite 0 /\
  (0 <= 0)%Z /\
  find Path.Posix tree_ts (One (lit "**/*.ts"))
       (with_maxDepth (Finite 0) (defaults posix_base))
  = Resolved [lit "a.ts"] /\
  forall dirPath d,
    In (EvOpendir dirPath d)
       (find_trace Path.Posix tree_ts (One (lit "**/*.ts"))
                   (with_maxDepth (Finite 0) (defaults posix_base))) ->
    (0 <= d <= 0)%Z /\ d = Z.of_nat (length dirPath).
Proof.
  split; [reflexivity|]. split; [apply Z.le_refl|]. split; [reflexivity|].
  exact (proj1 (walk_depth_bound Path.Posix tree_ts (One (lit "**/*.ts"))
                  (with_maxDepth (Finite 0) (defaults posix_base)) 0
                  [lit "a.ts"] eq_refl (Z.le_refl 0) eq_refl)).
Defined.

(** ** C5 and C6: failures of the file system *)

Section Emptied.

Variable pf : Path.platform.
Variable options : GlobOptions.
Variables ignoreMatchers ignoreNegMatchers : list RegExp.re.

Lemma dirent_type_emptied n : dirent_type_of (emptied n) = dirent_type_of n.
Proof. destruct n as [t [entries|]]; reflexivity. Qed.

(** A directory that cannot be opened is read like an empty one. *)
Lemma listed_emptied n :
  forall dirPath d,
    listed pf options ignoreMatchers ignoreNegMatchers (emptied n) dirPath d =
    listed pf options ignoreMatchers ignoreNegMatchers n dirPath d.
Proof.
  induction n as [t|t entries IH] using node_induction; intros dirPath d.
  - cbn [emptied listed]. destruct (depth_gt d (maxDepth options)); reflexivity.
  - cbn [emptied listed]. destruct (depth_gt d (maxDepth options)); [reflexivity|].
    f_equal.
    + rewrite map_map. apply map_ext. intros [name child]. cbn [fst snd].
      rewrite dirent_type_emptied. reflexivity.
    + induction IH as [|[name child] rest Hc _ IHrest]; [reflexivity|].
      cbn [map flat_map fst snd]. rewrite dirent_type_emptied, Hc, IHrest.
      reflexivity.
Qed.

End Emptied.

(** C5. [find] always resolves.  The result is the same when every
    directory that cannot be opened is replaced by an empty directory: it
    contributes nothing, and the rest of the tree is walked.  With a
    [.gitignore] that cannot be read, [loadGitignore] returns no line
    instead of throwing, and [find] behaves as with an empty file. *)
Theorem find_never_rejects pf w patterns options :
  (exists paths, find pf w patterns options = Resolved paths) /\
  find pf (emptied_world w) patterns options = find pf w patterns options /\
  (forall st,
      loadGitignore {| root := root w; gitignore := None |} st = (inr [], st)) /\
  find pf {| root := root w; gitignore := None |} patterns options
  = find pf {| root := root w; gitignore := Some [] |} patterns options /\
  find Path.Posix tree_locked (One (lit "**/*.ts")) (defaults posix_base)
  = Resolved [lit "src/a.ts"] /\
  In (EvError [lit "locked"])
     (find_trace Path.Posix tree_locked (One (lit "**/*.ts"))
                 (defaults posix_base)).
Proof.
  split; [|split; [|split; [|split; [|split]]]];
    [| | | |reflexivity|vm_compute; tauto].
  - eexists. apply find_resolves.
  - rewrite !find_resolves. f_equal.
    unfold find_results, walk_results, emptied_world. cbn [root gitignore].
    replace (Node DT_Dir (listing_of (emptied (Node DT_Dir (root w)))))
      with (emptied (Node DT_Dir (root w)))
      by (destruct (root w); reflexivity).
    unfold find_deny, find_override, ignoreList_of. cbn [gitignore].
    rewrite listed_emptied. reflexivity.
  - reflexivity.
  - rewrite !find_resolves. reflexivity.
Qed.

(** C6, amended. A base directory that cannot be opened does not make
    [find] reject: the call resolves to the empty sequence.  Unless
    [maxDepth] is negative, [walk] tries to open the base directory once,
    catches the failure and logs it, and does nothing else; with a negative
    [maxDepth] nothing is opened and nothing is logged. *)
Theorem find_invalid_base_resolves_empty pf w patterns options :
  root w = None ->
  find pf w patterns options = Resolved [] /\
  (limit_le (Finite 0) (maxDepth options) ->
   find_trace pf w patterns options = [EvOpendir [] 0; EvError []]) /\
  (~ limit_le (Finite 0) (maxDepth options) ->
   find_trace pf w patterns options = []).
Proof.
  intro Hroot. rewrite find_resolves, find_trace_walk.
  unfold find_results, walk_results. rewrite Hroot. cbn [listed walk_trace].
  destruct (maxDepth options) as [|m]; cbn [depth_gt limit_le].
  - split; [reflexivity|]. split; [reflexivity | intro H; exfalso; exact (H I)].
  - destruct (Z.ltb_spec m 0) as [Hneg|Hpos].
    + split; [reflexivity|]. split; [intro H; lia | reflexivity].
    + split; [reflexivity|]. split; [reflexivity | intro H; exfalso; exact (H Hpos)].
Qed.

Lemma find_invalid_base_resolves_empty_witness :
  root no_base = None /\
  find Path.Posix no_base (One (lit "*")) (defaults posix_base) = Resolved [] /\
  find_trace Path.Posix no_base (One (lit "*")) (defaults posix_base)
  = [EvOpendir [] 0; EvError []].
Proof.
  split; [reflexivity|].
  destruct (find_invalid_base_resolves_empty Path.Posix no_base (One (lit "*"))
              (defaults posix_base) eq_refl) as (Hres & Hlog & _).
  split; [exact Hres | exact (Hlog I)].
Defined.

(** C6, as stated, fails: with a base directory that cannot be opened the
    call does not reject; the error is caught and logged by [walk]. *)
Lemma find_invalid_base_not_rejected :
  ~ (exists e, find Path.Posix no_base (One (lit "*")) (defaults posix_base)
               = Rejected e) /\
  find_trace Path.Posix no_base (One (lit "*")) (defaults posix_base)
  = [EvOpendir [] 0; EvError []].
Proof.
  split; [|reflexivity]. intros [e H]. discriminate H.
Qed.

(** ** C7: the scenario of [node_modules] *)

(** C7, amended. In the tree with [node_modules/pkg/index.js] and
    [src/index.js], the pattern for every [.js] file with the ignore list of
    the scenario gives one result, the path of [src/index.js] relative to the
    base directory with the separator of the platform: [src/index.js] on a
    POSIX host, the same with a backslash on Windows.  No path under
    [node_modules] is in the results, and the file below
    [node_modules/pkg] is not even read. *)
Theorem find_skips_node_modules base :
  find Path.Posix tree_node_modules (One (lit "**/*.js"))
       (with_ignore [lit "**/node_modules/**"] (defaults base))
  = Resolved [lit "src/index.js"] /\
  (forall pf,
      find pf tree_node_modules (One (lit "**/*.js"))
           (with_ignore [lit "**/node_modules/**"] (defaults base))
      = Resolved [Path.relative pf [lit "src"; lit "index.js"]]) /\
  (forall pf t d,
      ~ In (EvDirent [lit "node_modules"; lit "pkg"; lit "index.js"] t d)
           (find_trace pf tree_node_modules (One (lit "**/*.js"))
                       (with_ignore [lit "**/node_modules/**"] (defaults base)))).
Proof.
  split; [reflexivity|]. split.
  - intros []; reflexivity.
  - intros pf t d H.
    destruct pf; vm_compute in H;
      repeat (destruct H as [E|H]; [discriminate E|]); exact H.
Qed.

(** C7, as stated, fails on a Windows host: the one result is written
    with a backslash, so the set of results is not the set that holds
    [src/index.js]. *)
Lemma find_node_modules_win32_separator :
  find Path.Win32 tree_node_modules (One (lit "**/*.js"))
       (with_ignore [lit "**/node_modules/**"] (defaults win32_base))
  = Resolved [lit "src" ++ [backslash] ++ lit "index.js"] /\
  ~ (forall paths,
        find Path.Win32 tree_node_modules (One (lit "**/*.js"))
             (with_ignore [lit "**/node_modules/**"] (defaults win32_base))
        = Resolved paths ->
        forall x, In x paths <-> x = lit "src/index.js").
Proof.
  split; [reflexivity|]. intro H.
  specialize (H [lit "src" ++ [backslash] ++ lit "index.js"] eq_refl
                (lit "src/index.js")).
  destruct H as [_ H]. destruct (H eq_refl) as [E|[]]. discriminate E.
Qed.

(** ** C8, C9 and C10: what is never collected *)

Section Unique.

Variable pf : Path.platform.
Variable w : world.
Variable patterns : one_or_many.
Variable options : GlobOptions.
Hypothesis Hgood : good_world pf w = true.

Lemma listed_good p t d :
  In (p, t, d) (find_listed pf w options) ->
  Forall (fun name => good_name pf name = true) p /\ p <> [].
Proof.
  intro H. apply find_listed_reaches in H as (child & Hr & _).
  eapply reaches_good; eauto.
Qed.

(** In a tree with distinct names, the entry read at a path is one. *)
Lemma listed_unique p t d t' d' :
  In (p, t, d) (find_listed pf w options) ->
  In (p, t', d') (find_listed pf w options) ->
  t = t' /\ d = d'.
Proof.
  intros H H'.
  apply find_listed_reaches in H as (c & Hr & -> & -> & _).
  apply find_listed_reaches in H' as (c' & Hr' & -> & -> & _).
  rewrite (reaches_unique pf _ _ _ Hr Hgood _ Hr'). auto.
Qed.

(** Two entries that are read and pushed as the same string are the
    same entry. *)
Lemma pushed_unique p t d q t' d' :
  In (p, t, d) (find_listed pf w options) ->
  In (q, t', d') (find_listed pf w options) ->
  find_pushed_for pf options q = find_pushed_for pf options p ->
  q = p /\ t' = t.
Proof.
  intros H H' E.
  destruct (listed_good _ _ _ H) as [G N].
  destruct (listed_good _ _ _ H') as [G' N'].
  apply pushed_path_inj in E. apply relative_inj in E; auto. subst q.
  split; [reflexivity|]. eapply listed_unique; eauto.
Qed.

(** A string is in the results only through the entry it is the path
    of. *)
Lemma in_results_entry p t d :
  In (EvDirent p t d) (find_trace pf w patterns options) ->
  In (find_pushed_for pf options p) (find_results pf w patterns options) <->
  find_collected pf w patterns options p t
  = Some (find_pushed_for pf options p).
Proof.
  intro Hev. apply find_dirent_listed in Hev. rewrite in_find_results. split.
  - intros (q & t' & d' & Hl & Hc).
    pose proof Hc as Hc'.
    apply collected_some in Hc' as (_ & _ & _ & _ & E).
    destruct (pushed_unique _ _ _ _ _ _ Hev Hl (eq_sym E)) as [-> ->].
    exact Hc.
  - intro Hc. exists p, t, d. auto.
Qed.

End Unique.

(** C8. In a tree with well-formed names: with [matchFilesWithoutExtensions]
    off, a file whose name has no extension is never in the results,
    whatever the patterns are; with the option on, it is in the results iff
    it is not ignored, files are eligible and a pattern matches it.  With
    the pattern [*], [Makefile] is left out when the option is off and
    found when it is on. *)
Theorem extensionless_files_filtered pf w patterns options paths :
  good_world pf w = true ->
  find pf w patterns options = Resolved paths ->
  (forall p d,
      In (EvDirent p DT_File d) (find_trace pf w patterns options) ->
      Path.extname (last p []) = [] ->
      (matchFilesWithoutExtensions options = false ->
       ~ In (find_pushed_for pf options p) paths) /\
      (matchFilesWithoutExtensions options = true ->
       (In (find_pushed_for pf options p) paths <->
        find_ignored pf w options p = false /\
        eligible options DT_File = true /\
        find_matched pf patterns p = true))) /\
  find Path.Posix tree_makefile (One (lit "*"))
       (with_matchFilesWithoutExtensions false (defaults posix_base))
  = Resolved [lit "main.c"] /\
  find Path.Posix tree_makefile (One (lit "*")) (defaults posix_base)
  = Resolved [lit "Makefile"; lit "main.c"].
Proof.
  intros Hgood. rewrite find_resolves. intros [= <-].
  split; [|split; reflexivity].
  intros p d Hev Hext.
  rewrite (in_results_entry pf w patterns options Hgood p DT_File d Hev).
  rewrite collected_some. unfold passes_extension_filter. rewrite Hext.
  split; intro Hflag; rewrite Hflag; cbn.
  - intros (_ & _ & ? & _). discriminate.
  - tauto.
Qed.

Lemma extensionless_files_filtered_witness :
  good_world Path.Posix tree_makefile = true /\
  find Path.Posix tree_makefile (One (lit "*"))
       (with_matchFilesWithoutExtensions false (defaults posix_base))
  = Resolved [lit "main.c"] /\
  ~ In (find_pushed_for Path.Posix
          (with_matchFilesWithoutExtensions false (defaults posix_base))
          [lit "Makefile"])
       [lit "main.c"].
Proof.
  split; [reflexivity|]. split; [reflexivity|].
  refine (proj1 (proj1 (extensionless_files_filtered Path.Posix tree_makefile
                          (One (lit "*"))
                          (with_matchFilesWithoutExtensions false
                             (defaults posix_base))
                          [lit "main.c"] eq_refl eq_refl)
                       [lit "Makefile"] 0%Z _ eq_refl) eq_refl).
  vm_compute. tauto.
Defined.

(** C9. In a tree with well-formed names, the base directory itself, the
    empty relative path or [cwd] when [absolute] is set, is never in the
    results, and no entry is read at the empty path. *)
Theorem base_directory_never_collected pf w patterns options paths :
  good_world pf w = true ->
  find pf w patterns options = Resolved paths ->
  ~ In (if absolute options then cwd options else []) paths /\
  (forall t d, ~ In (EvDirent [] t d) (find_trace pf w patterns options)).
Proof.
  intros Hgood. rewrite find_resolves. intros [= <-]. split.
  - intro Hin. apply in_find_results in Hin as (p & t & d & Hl & Hc).
    apply collected_some in Hc as (_ & _ & _ & _ & E).
    destruct (listed_good pf w options Hgood _ _ _ Hl) as [G N].
    apply (relative_nonempty pf p G N).
    apply (pushed_path_inj pf (cwd options) options).
    unfold find_pushed_for, pushed_for in E. rewrite <- E.
    unfold pushed_path. destruct (absolute options); reflexivity.
  - intros t d H. apply find_dirent_listed in H.
    destruct (listed_good pf w options Hgood _ _ _ H) as [_ N]. congruence.
Qed.

(** C10. In a tree with well-formed names, an entry that is neither a
    file nor a directory is never in the results and is never opened,
    even when [opendir] would succeed on it. *)
Theorem special_entries_never_collected pf w patterns options paths :
  good_world pf w = true ->
  find pf w patterns options = Resolved paths ->
  forall p d,
    In (EvDirent p DT_Other d) (find_trace pf w patterns options) ->
    ~ In (find_pushed_for pf options p) paths /\
    (forall d', ~ In (EvOpendir p d') (find_trace pf w patterns options)).
Proof.
  intros Hgood. rewrite find_resolves. intros [= <-] p d Hev. split.
  - rewrite (in_results_entry pf w patterns options Hgood p DT_Other d Hev).
    rewrite collected_some. intros (_ & He & _).
    unfold eligible in He. destruct (type options); discriminate.
  - intros d' Ho. apply find_dirent_listed in Hev.
    apply find_opendir_listed in Ho as (_ & [[-> _]|(Hl & _)]).
    + destruct (listed_good pf w options Hgood _ _ _ Hev) as [_ N]. congruence.
    + destruct (listed_unique pf w options Hgood _ _ _ _ _ Hev Hl) as [E _].
      discriminate E.
Qed.

Lemma base_directory_never_collected_witness :
  good_world Path.Posix tree_ts = true /\
  find Path.Posix tree_ts (Many [lit "*"; []]) (with_type All (defaults posix_base))
  = Resolved [lit "a.ts"; lit "b.js"; lit "sub"] /\
  ~ In (if absolute (with_type All (defaults posix_base))
        then cwd (with_type All (defaults posix_base)) else [])
       [lit "a.ts"; lit "b.js"; lit "sub"].
Proof.
  split; [reflexivity|]. split; [reflexivity|].
  exact (proj1 (base_directory_never_collected Path.Posix tree_ts
                  (Many [lit "*"; []]) (with_type All (defaults posix_base))
                  [lit "a.ts"; lit "b.js"; lit "sub"] eq_refl eq_refl)).
Defined.

Lemma special_entries_never_collected_witness :
  good_world Path.Posix tree_special = true /\
  find Path.Posix tree_special (One (lit "**/*")) (with_type All (defaults posix_base))
  = Resolved [lit "real"; lit "real/x.txt"] /\
  In (EvDirent [lit "link"] DT_Other 0)
     (find_trace Path.Posix tree_special (One (lit "**/*"))
                 (with_type All (defaults posix_base))) /\
  ~ In (find_pushed_for Path.Posix (with_type All (defaults posix_base))
                        [lit "link"])
       [lit "real"; lit "real/x.txt"] /\
  (forall d',
      ~ In (EvOpendir [lit "link"] d')
           (find_trace Path.Posix tree_special (One (lit "**/*"))
                       (with_type All (defaults posix_base)))).
Proof.
  split; [reflexivity|]. split; [reflexivity|].
  assert (Hev : In (EvDirent [lit "link"] DT_Other 0)
                   (find_trace Path.Posix tree_special (One (lit "**/*"))
                               (with_type All (defaults posix_base)))).
  { vm_compute. tauto. }
  split; [exact Hev|].
  exact (special_entries_never_collected Path.Posix tree_special
           (One (lit "**/*")) (with_type All (defaults posix_base))
           [lit "real"; lit "real/x.txt"] eq_refl eq_refl
           [lit "link"] 0%Z Hev).
Defined.

(* ================================================================== *)
(** * Part IV: further properties of the finder *)
(* ================================================================== *)

(** ** Patterns *)

Section GlobFacts.

Import GlobSpec.

(** The glob semantics of a sequence of tokens composes. *)
Lemma matches_app rc ts1 ts2 :
  forall p,
    matches rc (ts1 ++ ts2) p <->
    exists a b, p = a ++ b /\ matches rc ts1 a /\ matches rc ts2 b.
Proof.
  induction ts1 as [|t ts1 IH]; intro p; cbn [app matches].
  - split.
    + intro H. exists [], p. auto.
    + intros (a & b & -> & -> & H). exact H.
  - split.
    + intros (piece & rest & -> & Hc & Hm).
      apply IH in Hm as (a & b & -> & Ha & Hb).
      exists (piece ++ a), b. rewrite app_assoc. repeat split; auto.
      exists piece, a. auto.
    + intros (a & b & -> & (piece & rest & -> & Hc & Hm) & Hb).
      exists piece, (rest ++ b). rewrite app_assoc. repeat split; auto.
      apply IH. exists rest, b. auto.
Qed.

Lemma matches_literals rc pre :
  forall a, matches rc (map Literal pre) a <-> a = pre.
Proof.
  induction pre as [|c pre IH]; intro a; cbn [map matches]; [tauto|].
  split.
  - intros (piece & rest & -> & -> & Hm). apply IH in Hm. subst. reflexivity.
  - intros ->. exists [c], pre. repeat split. apply IH. reflexivity.
Qed.

Lemma tokens_app_literal pre rest :
  wildcard_free pre = true ->
  tokens (pre ++ rest) = map Literal pre ++ tokens rest.
Proof.
  induction pre as [|c pre IH]; intro H; [reflexivity|].
  cbn [wildcard_free forallb] in H. apply andb_prop in H as [Hc H].
  apply andb_prop in Hc as [Hq Hs].
  apply negb_true_iff in Hq. apply negb_true_iff in Hs.
  cbn [app map]. rewrite tokens_cons, Hq, Hs, (IH H). reflexivity.
Qed.

Lemma wildcard_free_head c suf :
  wildcard_free (c :: suf) = true -> c <> "*"%char.
Proof.
  cbn [wildcard_free forallb]. intros H ->. discriminate H.
Qed.

Lemma matches_star rc a :
  matches rc [Star] a <-> Forall (fun x => x <> slash) a.
Proof.
  cbn [matches consumes]. split.
  - intros (piece & rest & -> & H & ->). rewrite app_nil_r. exact H.
  - intro H. exists a, []. rewrite app_nil_r. auto.
Qed.

End GlobFacts.

(** The source that [globToRegex] hands to [new RegExp] is the two
    anchors around the texts of the tokens of the pattern, in order: no
    replacement rewrites what an earlier replacement wrote. *)
Theorem globToRegex_source_unclobbered pattern :
  globToRegex_source pattern
  = lit "^" ++ flat_map GlobSpec.text_of (GlobSpec.tokens pattern) ++ lit "$".
Proof. apply globToRegex_source_tokens. Qed.

(** The expression that [globToRegex] builds accepts a path iff the whole
    path splits along the tokens of the pattern, where the run of
    directories of a star, a star and a slash has no line terminator. *)
Theorem globToRegex_accepts_exactly pattern :
  exists r, globToRegex pattern = Some r /\
            forall p, RegExp.test r p = true <-> GlobSpec.code_matches pattern p.
Proof. apply globToRegex_accepts. Qed.

(** [globToRegex] never throws: for every pattern, the source it builds is
    accepted by [new RegExp]. *)
Theorem globToRegex_never_throws pattern :
  exists r, globToRegex pattern = Some r.
Proof. eexists. apply globToRegex_compiles. Qed.

(** A pattern without [?] and [*] accepts exactly itself, whatever other
    characters it holds: the characters that are special in a regular
    expression are taken literally.  In particular the empty pattern accepts
    the empty string only. *)
Theorem globToRegex_literal pattern :
  wildcard_free pattern = true ->
  exists r, globToRegex pattern = Some r /\
            forall p, RegExp.test r p = true <-> p = pattern.
Proof.
  intro H. destruct (globToRegex_accepts pattern) as (r & Hr & Hacc).
  exists r. split; [exact Hr|]. intro p. rewrite Hacc.
  unfold GlobSpec.code_matches.
  rewrite <- (app_nil_r pattern) at 1.
  rewrite tokens_app_literal by exact H. cbn [GlobSpec.tokens].
  rewrite app_nil_r. apply matches_literals.
Qed.

Lemma globToRegex_literal_witness :
  wildcard_free (lit "a.b+(c)[d]") = true /\
  exists r, globToRegex (lit "a.b+(c)[d]") = Some r /\
            forall p, RegExp.test r p = true <-> p = lit "a.b+(c)[d]".
Proof.
  split; [reflexivity|].
  apply (globToRegex_literal (lit "a.b+(c)[d]")). reflexivity.
Defined.

(** A single star between two texts without wildcards stands for any run
    of characters other than the separator: it never crosses a
    directory. *)
Theorem globToRegex_star pre suf :
  wildcard_free pre = true -> wildcard_free suf = true ->
  exists r, globToRegex (pre ++ lit "*" ++ suf) = Some r /\
            forall p, RegExp.test r p = true <->
                      exists mid, p = pre ++ mid ++ suf /\
                                  Forall (fun x => x <> slash) mid.
Proof.
  intros Hpre Hsuf.
  destruct (globToRegex_accepts (pre ++ lit "*" ++ suf)) as (r & Hr & Hacc).
  exists r. split; [exact Hr|]. intro p. rewrite Hacc.
  unfold GlobSpec.code_matches.
  rewrite tokens_app_literal by exact Hpre.
  assert (T : GlobSpec.tokens (lit "*" ++ suf)
              = [GlobSpec.Star] ++ map GlobSpec.Literal suf).
  { destruct suf as [|c suf]; [reflexivity|].
    change (lit "*" ++ c :: suf) with ("*"%char :: c :: suf).
    rewrite tokens_star by (eapply wildcard_free_head; exact Hsuf).
    rewrite <- (app_nil_r (c :: suf)) at 1.
    rewrite tokens_app_literal by exact Hsuf. cbn [GlobSpec.tokens].
    rewrite app_nil_r. reflexivity. }
  rewrite T, matches_app. split.
  - intros (a & b & -> & Ha & Hb). apply matches_literals in Ha. subst a.
    apply matches_app in Hb as (mid & c & -> & Hmid & Hc).
    apply matches_star in Hmid. apply matches_literals in Hc. subst c.
    exists mid. auto.
  - intros (mid & -> & Hmid). exists pre, (mid ++ suf).
    split; [reflexivity|]. split; [apply matches_literals; reflexivity|].
    apply matches_app. exists mid, suf. split; [reflexivity|].
    split; [apply matches_star; exact Hmid | apply matches_literals; reflexivity].
Qed.

Lemma globToRegex_star_witness :
  wildcard_free (lit "src/") = true /\ wildcard_free (lit ".ts") = true /\
  exists r, globToRegex (lit "src/" ++ lit "*" ++ lit ".ts") = Some r /\
            forall p, RegExp.test r p = true <->
                      exists mid, p = lit "src/" ++ mid ++ lit ".ts" /\
                                  Forall (fun x => x <> slash) mid.
Proof.
  split; [reflexivity|]. split; [reflexivity|].
  apply (globToRegex_star (lit "src/") (lit ".ts")); reflexivity.
Defined.

(** A pattern that starts with a star, a star and a slash accepts what
    the rest of the pattern accepts, directly or after any non-empty run of
    characters without line terminators followed by a separator: it stands
    for zero or more leading directories. *)
Theorem globToRegex_leading_globstar rest :
  exists r r',
    globToRegex (lit "**/" ++ rest) = Some r /\
    globToRegex rest = Some r' /\
    forall p,
      RegExp.test r p = true <->
      RegExp.test r' p = true \/
      exists run q,
        p = run ++ slash :: q /\ run <> [] /\
        forallb (fun c => negb (RegExp.is_line_terminator c)) run = true /\
        RegExp.test r' q = true.
Proof.
  destruct (globToRegex_accepts (lit "**/" ++ rest)) as (r & Hr & Hacc).
  destruct (globToRegex_accepts rest) as (r' & Hr' & Hacc').
  exists r, r'. split; [exact Hr|]. split; [exact Hr'|].
  intro p. rewrite Hacc. unfold GlobSpec.code_matches.
  change (GlobSpec.tokens (lit "**/" ++ rest))
    with (GlobSpec.Segments :: GlobSpec.tokens rest).
  cbn [GlobSpec.matches GlobSpec.consumes]. split.
  - intros (piece & q & -> & [->|(run & -> & Hne & Hrun)] & Hm).
    + left. apply Hacc'. exact Hm.
    + right. exists run, q. rewrite <- app_assoc.
      repeat split; auto. apply Hacc'. exact Hm.
  - intros [H|(run & q & -> & Hne & Hrun & H)]; apply Hacc' in H.
    + exists [], p. auto.
    + exists (run ++ [slash]), q. rewrite <- app_assoc.
      repeat split; auto. right. exists run. auto.
Qed.

(** Two stars at the end of a pattern, with no slash after them, are two
    single stars: the pattern accepts what the same text with one star
    accepts, and nothing in a deeper directory. *)
Theorem globToRegex_trailing_two_stars pre :
  wildcard_free pre = true ->
  exists r r',
    globToRegex (pre ++ lit "**") = Some r /\
    globToRegex (pre ++ lit "*") = Some r' /\
    forall p,
      RegExp.test r p = RegExp.test r' p /\
      (RegExp.test r p = true <->
       exists mid, p = pre ++ mid /\ Forall (fun x => x <> slash) mid).
Proof.
  intro Hpre.
  destruct (globToRegex_accepts (pre ++ lit "**")) as (r & Hr & Hacc).
  destruct (globToRegex_accepts (pre ++ lit "*")) as (r' & Hr' & Hacc').
  exists r, r'. split; [exact Hr|]. split; [exact Hr'|]. intro p.
  assert (H2 : RegExp.test r p = true <->
               exists mid, p = pre ++ mid /\ Forall (fun x => x <> slash) mid).
  { rewrite Hacc. unfold GlobSpec.code_matches.
    rewrite tokens_app_literal by exact Hpre.
    change (GlobSpec.tokens (lit "**")) with ([GlobSpec.Star] ++ [GlobSpec.Star]).
    rewrite matches_app. split.
    - intros (a & b & -> & Ha & Hb). apply matches_literals in Ha. subst a.
      apply matches_app in Hb as (m1 & m2 & -> & H1 & H2).
      apply matches_star in H1. apply matches_star in H2.
      exists (m1 ++ m2). split; [reflexivity|]. apply Forall_app. auto.
    - intros (mid & -> & Hmid). exists pre, mid. split; [reflexivity|].
      split; [apply matches_literals; reflexivity|].
      apply matches_app. exists mid, []. rewrite app_nil_r.
      split; [reflexivity|]. split; apply matches_star; auto. }
  assert (H1 : RegExp.test r' p = true <->
               exists mid, p = pre ++ mid /\ Forall (fun x => x <> slash) mid).
  { rewrite Hacc'. unfold GlobSpec.code_matches.
    rewrite tokens_app_literal by exact Hpre.
    change (GlobSpec.tokens (lit "*")) with [GlobSpec.Star].
    rewrite matches_app. split.
    - intros (a & b & -> & Ha & Hb). apply matches_literals in Ha. subst a.
      apply matches_star in Hb. exists b. auto.
    - intros (mid & -> & Hmid). exists pre, mid. split; [reflexivity|].
      split; [apply matches_literals; reflexivity | apply matches_star; auto]. }
  split; [|exact H2]. apply bool_eq_iff. rewrite H1, H2. reflexivity.
Qed.

Lemma globToRegex_trailing_two_stars_witness :
  wildcard_free (lit "node_modules/") = true /\
  exists r r',
    globToRegex (lit "node_modules/" ++ lit "**") = Some r /\
    globToRegex (lit "node_modules/" ++ lit "*") = Some r' /\
    forall p,
      RegExp.test r p = RegExp.test r' p /\
      (RegExp.test r p = true <->
       exists mid, p = lit "node_modules/" ++ mid /\
                   Forall (fun x => x <> slash) mid).
Proof.
  split; [reflexivity|].
  apply (globToRegex_trailing_two_stars (lit "node_modules/")). reflexivity.
Defined.

(** ** Ignored entries *)

Section Below.

Variable pf : Path.platform.
Variable options : GlobOptions.
Variables ignoreMatchers ignoreNegMatchers : list RegExp.re.

Local Abbreviation listed' := (listed pf options ignoreMatchers ignoreNegMatchers).
Local Abbreviation walk_trace' := (walk_trace pf options ignoreMatchers ignoreNegMatchers).

(** A walk that reads an entry has opened its directory. *)
Lemma listed_opens_start n dirPath d x :
  In x (listed' n dirPath d) -> In (EvOpendir dirPath d) (walk_trace' n dirPath d).
Proof.
  intro H. apply in_listed in H as (Hd & _).
  apply in_walk_trace. split; [exact Hd | left; reflexivity].
Qed.

(** Every directory on the way down to an entry that is read was
    opened. *)
Lemma listed_opens_prefix n :
  forall dirPath d s t d',
    In (s, t, d') (listed' n dirPath d) ->
    forall pre post,
      s = dirPath ++ pre ++ post -> pre <> [] -> post <> [] ->
      exists dd, In (EvOpendir (dirPath ++ pre) dd) (walk_trace' n dirPath d).
Proof.
  induction n as [t0|t0 entries IH] using node_induction;
    intros dirPath d s t d' H pre post Hs Hpre Hpost;
    apply in_listed in H; cbn [listing_of] in H.
  - destruct H as (_ & es & [=] & _).
  - rewrite Forall_forall in IH.
    destruct H as (Hd & es & [= <-] & [(e & He & [= -> -> ->])|(e & He & C & Hx)]).
    + exfalso. unfold Path.join in Hs. apply app_inv_head in Hs.
      destruct pre as [|a [|b pre]]; destruct post; cbn in Hs; congruence.
    + pose proof Hx as Hr.
      apply listed_reaches in Hr as (rel & child & Hs' & Hreach & _).
      pose proof (reaches_length _ _ _ Hreach) as Hlen.
      unfold Path.join in Hs'. rewrite Hs', <- app_assoc in Hs.
      apply app_inv_head in Hs. cbn [app] in Hs.
      destruct pre as [|a pre']; [congruence|].
      cbn [app] in Hs. injection Hs as <- Hrel.
      destruct pre' as [|b pre''].
      * exists (d + 1)%Z. apply in_walk_trace. split; [exact Hd|].
        right. right. exists entries. split; [reflexivity|]. right.
        exists e. repeat split; auto.
        eapply listed_opens_start. exact Hx.
      * destruct (IH e He (Path.join dirPath (fst e)) (d + 1)%Z _ _ _ Hx
                     (b :: pre'') post) as (dd & Hopen).
        -- unfold Path.join. rewrite Hs', <- !app_assoc. cbn [app].
           rewrite Hrel. reflexivity.
        -- discriminate.
        -- exact Hpost.
        -- exists dd. apply in_walk_trace. split; [exact Hd|].
           right. right. exists entries. split; [reflexivity|]. right.
           exists e. repeat split; auto.
           unfold Path.join in Hopen. rewrite <- app_assoc in Hopen.
           exact Hopen.
Qed.

End Below.

Lemma ignored_not_read pf w patterns options paths p :
  find pf w patterns options = Resolved paths ->
  p <> [] ->
  find_ignored pf w options p = true ->
  ~ In (find_pushed_for pf options p) paths /\
  (forall d, ~ In (EvOpendir p d) (find_trace pf w patterns options)) /\
  (forall q t d,
      q <> [] ->
      ~ In (EvDirent (p ++ q) t d) (find_trace pf w patterns options)).
Proof.
  rewrite find_resolves. intros [= <-] Hp Hign.
  assert (Hopen : forall d, ~ In (EvOpendir p d) (find_trace pf w patterns options)).
  { intros d Ho. apply find_opendir_listed in Ho as (_ & [[-> _]|(_ & Hi & _)]);
      congruence. }
  split; [|split; [exact Hopen|]].
  - intro Hin. apply in_find_results in Hin as (q & t & d & _ & Hc).
    apply collected_some in Hc as (Hi & _ & _ & _ & E).
    apply (pushed_same_unix pf options) in E.
    unfold find_ignored, ignored in *. rewrite E in Hign. congruence.
  - intros q t d Hq Hev. apply find_dirent_listed in Hev.
    unfold find_listed in Hev.
    destruct (listed_opens_prefix pf options _ _ _ _ _ _ _ _ Hev p q eq_refl Hp Hq)
      as (dd & Ho).
    apply (Hopen dd). rewrite find_trace_walk. exact Ho.
Qed.

(** The ignore check comes before collection and before recursion: an
    entry that is ignored is not in the results, its directory is never
    opened, and nothing below it is read. *)
Theorem ignored_entries_skipped pf w patterns options paths p :
  find pf w patterns options = Resolved paths ->
  p <> [] ->
  find_ignored pf w options p = true ->
  ~ In (find_pushed_for pf options p) paths /\
  (forall d, ~ In (EvOpendir p d) (find_trace pf w patterns options)) /\
  (forall q t d,
      q <> [] ->
      ~ In (EvDirent (p ++ q) t d) (find_trace pf w patterns options)).
Proof. exact (ignored_not_read pf w patterns options paths p). Qed.

Lemma ignored_entries_skipped_witness :
  find Path.Posix tree_node_modules (One (lit "**/*.js"))
       (with_ignore [lit "**/node_modules/**"] (defaults posix_base))
  = Resolved [lit "src/index.js"] /\
  [lit "node_modules"; lit "pkg"] <> [] /\
  find_ignored Path.Posix tree_node_modules
               (with_ignore [lit "**/node_modules/**"] (defaults posix_base))
               [lit "node_modules"; lit "pkg"] = true /\
  forall d,
    ~ In (EvOpendir [lit "node_modules"; lit "pkg"] d)
         (find_trace Path.Posix tree_node_modules (One (lit "**/*.js"))
                     (with_ignore [lit "**/node_modules/**"] (defaults posix_base))).
Proof.
  split; [reflexivity|]. split; [discriminate|]. split; [reflexivity|].
  refine (proj1 (proj2 (ignored_entries_skipped Path.Posix tree_node_modules
                          (One (lit "**/*.js"))
                          (with_ignore [lit "**/node_modules/**"]
                                       (defaults posix_base))
                          [lit "src/index.js"]
                          [lit "node_modules"; lit "pkg"] eq_refl _ eq_refl))).
  discriminate.
Defined.

(** ** The kind of entries *)

(** In a tree with well-formed names, an entry that is not eligible under
    [type] is never in the results: no directory with [files], no file with
    [folders], and nothing else with any value. *)
Theorem ineligible_entries_never_collected pf w patterns options paths p t d :
  good_world pf w = true ->
  find pf w patterns options = Resolved paths ->
  In (EvDirent p t d) (find_trace pf w patterns options) ->
  eligible options t = false ->
  ~ In (find_pushed_for pf options p) paths.
Proof.
  intros Hgood. rewrite find_resolves. intros [= <-] Hev He.
  rewrite (in_results_entry pf w patterns options Hgood p t d Hev).
  rewrite collected_some. intros (_ & He' & _). congruence.
Qed.

Lemma ineligible_entries_never_collected_witness :
  good_world Path.Posix tree_ts = true /\
  find Path.Posix tree_ts (One (lit "*")) (defaults posix_base)
  = Resolved [lit "a.ts"; lit "b.js"] /\
  In (EvDirent [lit "sub"] DT_Dir 0)
     (find_trace Path.Posix tree_ts (One (lit "*")) (defaults posix_base)) /\
  eligible (defaults posix_base) DT_Dir = false /\
  ~ In (find_pushed_for Path.Posix (defaults posix_base) [lit "sub"])
       [lit "a.ts"; lit "b.js"].
Proof.
  split; [reflexivity|]. split; [reflexivity|].
  assert (Hev : In (EvDirent [lit "sub"] DT_Dir 0)
                   (find_trace Path.Posix tree_ts (One (lit "*"))
                               (defaults posix_base))).
  { vm_compute. tauto. }
  split; [exact Hev|]. split; [reflexivity|].
  exact (ineligible_entries_never_collected Path.Posix tree_ts (One (lit "*"))
           (defaults posix_base) [lit "a.ts"; lit "b.js"] [lit "sub"] DT_Dir 0
           eq_refl eq_refl Hev eq_refl).
Defined.

(** ** Several patterns *)

Lemma some_app ms1 ms2 p : some (ms1 ++ ms2) p = some ms1 p || some ms2 p.
Proof. unfold some. apply existsb_app. Qed.

(** The results for a list of patterns are the results for its parts put
    together: a path is found for [ps ++ qs] iff it is found for [ps] or
    for [qs]. *)
Theorem find_patterns_union pf w options ps qs paths_ps paths_qs paths :
  find pf w (Many ps) options = Resolved paths_ps ->
  find pf w (Many qs) options = Resolved paths_qs ->
  find pf w (Many (ps ++ qs)) options = Resolved paths ->
  forall x, In x paths <-> In x paths_ps \/ In x paths_qs.
Proof.
  rewrite !find_resolves. intros [= <-] [= <-] [= <-] x.
  rewrite !in_find_results.
  assert (M : forall p, find_matched pf (Many (ps ++ qs)) p
                        = find_matched pf (Many ps) p || find_matched pf (Many qs) p).
  { intro p. unfold find_matched, matched, matchers_of. cbn [to_array].
    rewrite !map_app. apply some_app. }
  split.
  - intros (p & t & d & Hl & Hc).
    apply collected_some in Hc as (Hi & He & Hx & Hm & ->).
    rewrite M in Hm. apply orb_prop in Hm as [Hm|Hm]; [left|right];
      exists p, t, d; (split; [exact Hl|]); apply collected_some; auto.
  - intros [(p & t & d & Hl & Hc)|(p & t & d & Hl & Hc)];
      apply collected_some in Hc as (Hi & He & Hx & Hm & ->);
      exists p, t, d; (split; [exact Hl|]); apply collected_some;
      repeat split; auto; rewrite M, Hm; auto using orb_true_r.
Qed.

Lemma find_patterns_union_witness :
  find Path.Posix tree_ts (Many [lit "*.ts"]) (defaults posix_base)
  = Resolved [lit "a.ts"] /\
  find Path.Posix tree_ts (Many [lit "*.js"]) (defaults posix_base)
  = Resolved [lit "b.js"] /\
  find Path.Posix tree_ts (Many ([lit "*.ts"] ++ [lit "*.js"])) (defaults posix_base)
  = Resolved [lit "a.ts"; lit "b.js"] /\
  forall x, In x [lit "a.ts"; lit "b.js"] <-> In x [lit "a.ts"] \/ In x [lit "b.js"].
Proof.
  split; [reflexivity|]. split; [reflexivity|]. split; [reflexivity|].
  exact (find_patterns_union Path.Posix tree_ts (defaults posix_base)
           [lit "*.ts"] [lit "*.js"] [lit "a.ts"] [lit "b.js"]
           [lit "a.ts"; lit "b.js"] eq_refl eq_refl eq_refl).
Defined.

(** ** The depth limit *)

Lemma depth_gt_mono d l l' :
  limit_le l l' -> depth_gt d l = false -> depth_gt d l' = false.
Proof.
  destruct l as [|m], l' as [|m']; cbn; auto; try tauto.
  intros Hle H. apply Z.ltb_ge in H. apply Z.ltb_ge. lia.
Qed.

Lemma depth_lt_mono d l l' :
  limit_le l l' -> depth_lt d l = true -> depth_lt d l' = true.
Proof.
  destruct l as [|m], l' as [|m']; cbn; auto; try tauto.
  intros Hle H. apply Z.ltb_lt in H. apply Z.ltb_lt. lia.
Qed.

(** With a larger depth limit the walk reads at least the same entries. *)
Lemma listed_depth_mono pf o l l' deny overrides n :
  limit_le l l' ->
  forall dirPath d x,
    In x (listed pf (with_maxDepth l o) deny overrides n dirPath d) ->
    In x (listed pf (with_maxDepth l' o) deny overrides n dirPath d).
Proof.
  intro Hle. induction n as [t0|t0 entries IH] using node_induction;
    intros dirPath d x H; apply in_listed in H; apply in_listed;
    cbn [listing_of maxDepth with_maxDepth] in *;
    destruct H as (Hd & es & Hes & H).
  - discriminate Hes.
  - injection Hes as <-. rewrite Forall_forall in IH.
    split; [eapply depth_gt_mono; eauto|].
    exists entries. split; [reflexivity|].
    destruct H as [H|(e & He & C & Hx)]; [left; exact H|].
    right. exists e. split; [exact He|]. split; [|apply IH; auto].
    unfold descends in *. cbn [maxDepth with_maxDepth] in *.
    destruct (dirent_type_of (snd e)); try discriminate.
    apply andb_prop in C as [Ci Cl]. rewrite Ci. cbn [andb].
    eapply depth_lt_mono; eauto.
Qed.

(** Raising [maxDepth] never loses a result: what is found with a limit
    is found with any larger limit, and with no limit. *)
Theorem find_depth_monotone pf w patterns options l l' paths paths' :
  limit_le l l' ->
  find pf w patterns (with_maxDepth l options) = Resolved paths ->
  find pf w patterns (with_maxDepth l' options) = Resolved paths' ->
  forall x, In x paths -> In x paths'.
Proof.
  intros Hle. rewrite !find_resolves. intros [= <-] [= <-] x Hx.
  apply in_find_results in Hx as (p & t & d & Hl & Hc).
  apply in_find_results. exists p, t, d. split; [|exact Hc].
  unfold find_listed in *.
  apply (listed_depth_mono pf options l l' _ _ _ Hle). exact Hl.
Qed.

Lemma find_depth_monotone_witness :
  limit_le (Finite 0) Infinity /\
  find Path.Posix tree_ts (One (lit "**/*.ts"))
       (with_maxDepth (Finite 0) (defaults posix_base))
  = Resolved [lit "a.ts"] /\
  find Path.Posix tree_ts (One (lit "**/*.ts"))
       (with_maxDepth Infinity (defaults posix_base))
  = Resolved [lit "a.ts"; lit "sub/c.ts"] /\
  forall x, In x [lit "a.ts"] -> In x [lit "a.ts"; lit "sub/c.ts"].
Proof.
  split; [exact I|]. split; [reflexivity|]. split; [reflexivity|].
  exact (find_depth_monotone Path.Posix tree_ts (One (lit "**/*.ts"))
           (defaults posix_base) (Finite 0) Infinity
           [lit "a.ts"] [lit "a.ts"; lit "sub/c.ts"] I eq_refl eq_refl).
Defined.

(** With a negative [maxDepth] nothing is done: the base directory is not
    even opened, nothing is logged, and the result is empty. *)
Theorem find_negative_depth pf w patterns options m :
  maxDepth options = Finite m -> (m < 0)%Z ->
  find pf w patterns options = Resolved [] /\
  find_trace pf w patterns options = [].
Proof.
  intros Hmax Hm.
  assert (G : depth_gt 0 (maxDepth options) = true).
  { rewrite Hmax. cbn. apply Z.ltb_lt. exact Hm. }
  rewrite find_resolves, find_trace_walk. split.
  - f_equal. unfold find_results, walk_results.
    destruct (root w); cbn [listed]; rewrite G; reflexivity.
  - destruct (root w); cbn [walk_trace]; rewrite G; reflexivity.
Qed.

Lemma find_negative_depth_witness :
  maxDepth (with_maxDepth (Finite (-1)) (defaults posix_base)) = Finite (-1) /\
  (-1 < 0)%Z /\
  find Path.Posix tree_ts (One (lit "**/*.ts"))
       (with_maxDepth (Finite (-1)) (defaults posix_base)) = Resolved [] /\
  find_trace Path.Posix tree_ts (One (lit "**/*.ts"))
             (with_maxDepth (Finite (-1)) (defaults posix_base)) = [].
Proof.
  split; [reflexivity|]. split; [reflexivity|].
  exact (find_negative_depth Path.Posix tree_ts (One (lit "**/*.ts"))
           (with_maxDepth (Finite (-1)) (defaults posix_base)) (-1)
           eq_refl eq_refl).
Defined.

(** ** Absolute results *)

Lemma absolute_results_resolved pf w patterns options :
  find_results pf w patterns (with_absolute true options)
  = map (Path.resolve pf (cwd options))
        (find_results pf w patterns (with_absolute false options)).
Proof.
  unfold find_results, walk_results.
  change (listed pf (with_absolute true options)
                 (find_deny w (with_absolute true options))
                 (find_override w (with_absolute true options)))
    with (listed pf (with_absolute false options)
                 (find_deny w (with_absolute false options))
                 (find_override w (with_absolute false options))).
  generalize (listed pf (with_absolute false options)
                     (find_deny w (with_absolute false options))
                     (find_override w (with_absolute false options))
                     (Node DT_Dir (root w)) [] 0%Z).
  intro l. induction l as [|[[p t] d] l IH]; [reflexivity|].
  cbn [flat_map fst snd]. rewrite map_app, <- IH. f_equal.
  unfold collected, pushed_for, pushed_path.
  cbn [absolute with_absolute cwd].
  change (ignored pf (find_deny w (with_absolute true options))
                  (find_override w (with_absolute true options)) p)
    with (ignored pf (find_deny w (with_absolute false options))
                  (find_override w (with_absolute false options)) p).
  destruct (ignored pf _ _ p); [reflexivity|].
  change (eligible (with_absolute true options) t)
    with (eligible (with_absolute false options) t).
  change (passes_extension_filter (with_absolute true options) t (last p []))
    with (passes_extension_filter (with_absolute false options) t (last p [])).
  destruct (eligible (with_absolute false options) t
            && passes_extension_filter (with_absolute false options) t (last p [])
            && matched pf (matchers_of patterns) p); reflexivity.
Qed.

(** With [absolute], the results are, up to their order, the results of
    the same call without [absolute], each resolved against the base
    directory: the same paths, as many times. *)
Theorem find_absolute_resolves pf w patterns options paths :
  find pf w patterns (with_absolute false options) = Resolved paths ->
  exists resolved,
    find pf w patterns (with_absolute true options) = Resolved resolved /\
    Permutation resolved (map (Path.resolve pf (cwd options)) paths).
Proof.
  rewrite !find_resolves. intros [= <-].
  eexists. split; [reflexivity|].
  rewrite absolute_results_resolved. apply Permutation_refl.
Qed.

Lemma find_absolute_resolves_witness :
  find Path.Posix tree_ts (One (lit "**/*.ts"))
       (with_absolute false (defaults posix_base))
  = Resolved [lit "a.ts"; lit "sub/c.ts"] /\
  exists resolved,
    find Path.Posix tree_ts (One (lit "**/*.ts"))
         (with_absolute true (defaults posix_base)) = Resolved resolved /\
    Permutation resolved
                (map (Path.resolve Path.Posix (cwd (defaults posix_base)))
                     [lit "a.ts"; lit "sub/c.ts"]).
Proof.
  split; [reflexivity|].
  exact (find_absolute_resolves Path.Posix tree_ts (One (lit "**/*.ts"))
           (defaults posix_base) [lit "a.ts"; lit "sub/c.ts"] eq_refl).
Defined.

(** ** The ignore list and [.gitignore] *)

(** With [useGitignore], the lines that [loadGitignore] returns act as
    ignore patterns added after the explicit ones: the call is the call
    without [useGitignore] and with the longer ignore list. *)
Theorem gitignore_lines_extend_ignore pf w patterns options lines :
  useGitignore options = true ->
  fst (loadGitignore w initial) = inr lines ->
  find pf w patterns options =
  find pf w patterns
       (with_useGitignore false
          (with_ignore (to_array (ignore options) ++ lines) options)).
Proof.
  intros Hflag. rewrite runs_loadGitignore. intros [= <-].
  rewrite !find_resolves. f_equal.
  unfold find_results, find_deny, find_override, ignoreList_of.
  cbn [ignore useGitignore with_useGitignore with_ignore to_array cwd].
  rewrite Hflag, app_nil_r. reflexivity.
Qed.

Lemma normalize_slashes_idempotent s :
  normalize_slashes (normalize_slashes s) = normalize_slashes s.
Proof.
  unfold normalize_slashes, JsString.replace_each.
  induction s as [|c s IH]; [reflexivity|].
  cbn [flat_map]. rewrite flat_map_app, IH. f_equal.
  destruct (Ascii.eqb_spec c backslash) as [->|N].
  - reflexivity.
  - cbn [flat_map]. rewrite (eqb_neq_false _ _ N). reflexivity.
Qed.

(** A backslash in a pattern or in an ignore pattern is read as a slash:
    the call with the slashes already normalized is the same call. *)
Theorem find_backslash_as_slash pf w options ps :
  find pf w (Many (map normalize_slashes ps)) options
  = find pf w (Many ps) options /\
  find pf w (Many ps)
       (with_ignore (map normalize_slashes (to_array (ignore options))) options)
  = find pf w (Many ps) options.
Proof.
  rewrite !find_resolves. split; f_equal.
  - unfold find_results, matchers_of. cbn [to_array].
    rewrite (map_map normalize_slashes normalize_slashes).
    rewrite (map_ext (fun x => normalize_slashes (normalize_slashes x))
                     normalize_slashes normalize_slashes_idempotent).
    reflexivity.
  - unfold find_results, find_deny, find_override, ignoreList_of.
    cbn [ignore useGitignore with_ignore to_array cwd].
    rewrite !map_app, (map_map normalize_slashes normalize_slashes).
    rewrite (map_ext (fun x => normalize_slashes (normalize_slashes x))
                     normalize_slashes normalize_slashes_idempotent).
    reflexivity.
Qed.

Lemma gitignore_lines_extend_ignore_witness :
  useGitignore (with_useGitignore true (defaults posix_base)) = true /\
  fst (loadGitignore tree_gitignore initial) = inr [lit "build"; lit "*.log"] /\
  find Path.Posix tree_gitignore (One (lit "**/*.ts"))
       (with_useGitignore true (defaults posix_base)) =
  find Path.Posix tree_gitignore (One (lit "**/*.ts"))
       (with_useGitignore false
          (with_ignore
             (to_array (ignore (with_useGitignore true (defaults posix_base)))
              ++ [lit "build"; lit "*.log"])
             (with_useGitignore true (defaults posix_base)))).
Proof.
  split; [reflexivity|]. split; [reflexivity|].
  exact (gitignore_lines_extend_ignore Path.Posix tree_gitignore
           (One (lit "**/*.ts")) (with_useGitignore true (defaults posix_base))
           [lit "build"; lit "*.log"] eq_refl eq_refl).
Defined.

(** ** The lines of [.gitignore] *)

Lemma split_no_sep c s : forall w, In w (JsString.split c s) -> ~ In c w.
Proof.
  induction s as [|x s IH]; cbn [JsString.split]; intros w Hw.
  - destruct Hw as [<-|[]]. intros [].
  - destruct (Ascii.eqb_spec x c) as [->|N].
    + destruct Hw as [<-|Hw]; [intros [] | apply IH; exact Hw].
    + destruct (JsString.split c s) as [|h t].
      * destruct Hw as [<-|[]]. intros [E|[]]. congruence.
      * destruct Hw as [<-|Hw].
        -- intros [E|Hin]; [congruence|]. apply (IH h); [left; reflexivity | exact Hin].
        -- apply IH. right. exact Hw.
Qed.

Lemma trimStart_suffix s : exists pre, s = pre ++ JsString.trimStart s.
Proof.
  induction s as [|x s [pre IH]]; [exists []; reflexivity|].
  cbn [JsString.trimStart]. destruct (JsString.is_space x).
  - exists (x :: pre). cbn. rewrite <- IH. reflexivity.
  - exists []. reflexivity.
Qed.

Lemma trimStart_head s c r :
  JsString.trimStart s = c :: r -> JsString.is_space c = false.
Proof.
  induction s as [|x s IH]; cbn [JsString.trimStart]; [discriminate|].
  destruct (JsString.is_space x) eqn:E; [exact IH|].
  intros [= <- _]. exact E.
Qed.

Lemma trimStart_fixed s :
  (forall c r, s = c :: r -> JsString.is_space c = false) ->
  JsString.trimStart s = s.
Proof.
  destruct s as [|x s]; [reflexivity|]. intro H.
  cbn [JsString.trimStart]. rewrite (H x s eq_refl). reflexivity.
Qed.

Lemma trimStart_incl s x : In x (JsString.trimStart s) -> In x s.
Proof.
  destruct (trimStart_suffix s) as [pre E]. intro H.
  rewrite E. apply in_or_app. right. exact H.
Qed.

Lemma trim_incl s x : In x (JsString.trim s) -> In x s.
Proof.
  unfold JsString.trim. intro H. apply in_rev in H.
  apply trimStart_incl in H. apply in_rev in H.
  apply trimStart_incl in H. exact H.
Qed.

(** Trimming twice is trimming once. *)
Lemma trim_idempotent s : JsString.trim (JsString.trim s) = JsString.trim s.
Proof.
  unfold JsString.trim.
  set (Y := JsString.trimStart s).
  set (X := JsString.trimStart (rev Y)).
  assert (H1 : JsString.trimStart (rev X) = rev X).
  { apply trimStart_fixed. intros c r Hc.
    destruct (trimStart_suffix (rev Y)) as [pre E]. fold X in E.
    apply (f_equal (@rev ascii)) in E.
    rewrite rev_involutive, rev_app_distr, Hc in E.
    apply (trimStart_head s c (r ++ rev pre)). fold Y. exact E. }
  rewrite H1, rev_involutive.
  assert (H2 : JsString.trimStart X = X).
  { apply trimStart_fixed. intros c r Hc.
    apply (trimStart_head (rev Y) c r). exact Hc. }
  rewrite H2. reflexivity.
Qed.

(** What [loadGitignore] returns: every line is trimmed, is not empty,
    is not a comment, and has no line feed in it. *)
Theorem loadGitignore_lines_clean w st lines :
  fst (loadGitignore w st) = inr lines ->
  Forall (fun line =>
            line <> [] /\
            JsString.startsWith (lit "#") line = false /\
            JsString.trim line = line /\
            ~ In newline line) lines.
Proof.
  rewrite runs_loadGitignore. intros [= <-].
  unfold gitignore_lines. destruct (gitignore w) as [content|]; [|constructor].
  apply Forall_forall. intros line Hline.
  apply filter_In in Hline as [Hin Hf].
  apply andb_prop in Hf as [Hne Hc].
  apply negb_true_iff in Hne. apply negb_true_iff in Hc.
  apply in_map_iff in Hin as (raw & <- & Hraw).
  split; [|split; [exact Hc|split; [apply trim_idempotent|]]].
  - intro E. rewrite E in Hne. discriminate Hne.
  - intro Hnl. apply trim_incl in Hnl.
    exact (split_no_sep newline content raw Hraw Hnl).
Qed.

Lemma loadGitignore_lines_clean_witness :
  fst (loadGitignore tree_gitignore initial) = inr [lit "build"; lit "*.log"] /\
  Forall (fun line =>
            line <> [] /\
            JsString.startsWith (lit "#") line = false /\
            JsString.trim line = line /\
            ~ In newline line) [lit "build"; lit "*.log"].
Proof.
  split; [reflexivity|].
  exact (loadGitignore_lines_clean tree_gitignore initial
           [lit "build"; lit "*.log"] eq_refl).
Defined.

(** ** Platforms *)

Lemma split_without_sep c w : ~ In c w -> JsString.split c w = [w].
Proof.
  induction w as [|x w IH]; intro H; [reflexivity|].
  cbn [JsString.split].
  destruct (Ascii.eqb_spec x c) as [->|N]; [exfalso; apply H; left; reflexivity|].
  rewrite IH; [reflexivity|]. intro Hin. apply H. right. exact Hin.
Qed.

Lemma split_app_sep c w rest :
  ~ In c w -> JsString.split c (w ++ c :: rest) = w :: JsString.split c rest.
Proof.
  induction w as [|x w IH]; intro H.
  - cbn [app JsString.split]. rewrite Ascii.eqb_refl. reflexivity.
  - cbn [app JsString.split].
    destruct (Ascii.eqb_spec x c) as [->|N]; [exfalso; apply H; left; reflexivity|].
    rewrite IH; [reflexivity|]. intro Hin. apply H. right. exact Hin.
Qed.

(** Joining pieces that are free of the separator and splitting again
    gives the pieces back. *)
Lemma split_join c ws :
  ws <> [] -> Forall (fun w => ~ In c w) ws ->
  JsString.split c (JsString.join [c] ws) = ws.
Proof.
  induction ws as [|w ws IH]; intros Hne Hall; [congruence|].
  inversion Hall as [|? ? Hw Hws]; subst.
  destruct ws as [|w2 ws].
  - cbn [JsString.join]. apply split_without_sep. exact Hw.
  - change (JsString.join [c] (w :: w2 :: ws))
      with (w ++ c :: JsString.join [c] (w2 :: ws)).
    rewrite split_app_sep by exact Hw. rewrite IH; [reflexivity|discriminate|exact Hws].
Qed.

Lemma good_name_no_slash pf name : good_name pf name = true -> ~ In slash name.
Proof.
  unfold good_name. intros H Hin. apply andb_prop in H as [_ Hall].
  rewrite forallb_forall in Hall. specialize (Hall _ Hin).
  apply andb_prop in Hall as [Hs _]. rewrite Ascii.eqb_refl in Hs.
  discriminate Hs.
Qed.

(** For well-formed names, the path the matchers see is the names joined
    by slashes, and the relative path that is pushed is that path with the
    separator of the platform. *)
Lemma relPathUnix_good_names pf p :
  Forall (fun name => good_name pf name = true) p -> p <> [] ->
  relPathUnix_of pf p = JsString.join [slash] p /\
  Path.relative pf p = to_platform pf (JsString.join [slash] p).
Proof.
  intros Hgood Hne. split.
  - unfold relPathUnix_of, to_unix, Path.relative.
    rewrite split_join; [reflexivity | exact Hne |].
    eapply Forall_impl; [|exact Hgood]. intros name Hn.
    apply (good_name_spec pf). exact Hn.
  - unfold to_platform, Path.relative.
    rewrite split_join; [reflexivity | exact Hne |].
    eapply Forall_impl; [|exact Hgood]. intros name Hn.
    apply (good_name_no_slash pf). exact Hn.
Qed.


Lemma good_name_posix name :
  good_name Path.Win32 name = true -> good_name Path.Posix name = true.
Proof.
  unfold good_name. intro H. apply andb_prop in H as [Hne Hall].
  rewrite Hne. cbn [andb]. rewrite forallb_forall in *.
  intros c Hc. specialize (Hall c Hc). apply andb_prop in Hall as [Hs _].
  cbn [Path.sep]. rewrite Hs. reflexivity.
Qed.

(** The path the matchers see does not depend on the platform: for
    names that are well formed on Windows it is the names joined by slashes
    on both platforms, and the relative path pushed on Windows is the one
    pushed on a POSIX host with backslashes for the slashes. *)
Theorem relPathUnix_platform_independent p :
  Forall (fun name => good_name Path.Win32 name = true) p -> p <> [] ->
  relPathUnix_of Path.Win32 p = relPathUnix_of Path.Posix p /\
  relPathUnix_of Path.Posix p = JsString.join [slash] p /\
  Path.relative Path.Win32 p = to_platform Path.Win32 (Path.relative Path.Posix p).
Proof.
  intros G N.
  destruct (relPathUnix_good_names Path.Win32 p G N) as [U R].
  destruct (relPathUnix_good_names Path.Posix p
              (Forall_impl _ good_name_posix G) N) as [U' _].
  rewrite U, U', R. repeat split.
Qed.

Lemma relPathUnix_platform_independent_witness :
  Forall (fun name => good_name Path.Win32 name = true) [lit "sub"; lit "c.ts"] /\
  [lit "sub"; lit "c.ts"] <> [] /\
  relPathUnix_of Path.Win32 [lit "sub"; lit "c.ts"]
  = relPathUnix_of Path.Posix [lit "sub"; lit "c.ts"] /\
  relPathUnix_of Path.Posix [lit "sub"; lit "c.ts"]
  = JsString.join [slash] [lit "sub"; lit "c.ts"] /\
  Path.relative Path.Win32 [lit "sub"; lit "c.ts"]
  = to_platform Path.Win32 (Path.relative Path.Posix [lit "sub"; lit "c.ts"]).
Proof.
  assert (G : Forall (fun name => good_name Path.Win32 name = true)
                     [lit "sub"; lit "c.ts"]).
  { repeat constructor. }
  split; [exact G|]. split; [discriminate|].
  apply (relPathUnix_platform_independent [lit "sub"; lit "c.ts"] G).
  discriminate.
Defined.

Lemma flat_map_ext_in {A B} (f g : A -> list B) l :
  (forall a, In a l -> f a = g a) -> flat_map f l = flat_map g l.
Proof.
  induction l as [|a l IH]; intro H; [reflexivity|].
  cbn [flat_map]. rewrite (H a (or_introl eq_refl)), IH; [reflexivity|].
  intros b Hb. apply H. right. exact Hb.
Qed.

Section Platforms.

Variable options : GlobOptions.
Variables ignoreMatchers ignoreNegMatchers : list RegExp.re.

Lemma ignored_platform_independent p :
  Forall (fun name => good_name Path.Win32 name = true) p -> p <> [] ->
  ignored Path.Win32 ignoreMatchers ignoreNegMatchers p
  = ignored Path.Posix ignoreMatchers ignoreNegMatchers p.
Proof.
  intros G N. unfold ignored.
  rewrite (proj1 (relPathUnix_good_names Path.Win32 p G N)).
  rewrite (proj1 (relPathUnix_good_names Path.Posix p
                    (Forall_impl _ good_name_posix G) N)).
  reflexivity.
Qed.

(** In a tree with names that are well formed on Windows, the walk reads
    the same entries and leaves the same trace on both platforms. *)
Lemma walk_platform_independent n :
  good_node Path.Win32 n = true ->
  forall dirPath d,
    Forall (fun name => good_name Path.Win32 name = true) dirPath ->
    listed Path.Win32 options ignoreMatchers ignoreNegMatchers n dirPath d
    = listed Path.Posix options ignoreMatchers ignoreNegMatchers n dirPath d /\
    walk_trace Path.Win32 options ignoreMatchers ignoreNegMatchers n dirPath d
    = walk_trace Path.Posix options ignoreMatchers ignoreNegMatchers n dirPath d.
Proof.
  induction n as [t0|t0 entries IH] using node_induction;
    intros G dirPath d Gdir; [split; reflexivity|].
  apply good_node_entries in G as [_ G]. rewrite Forall_forall in IH.
  assert (Hsub : forall e, In e entries ->
             descends Path.Win32 options ignoreMatchers ignoreNegMatchers
                      (Path.join dirPath (fst e)) (dirent_type_of (snd e)) d
             = descends Path.Posix options ignoreMatchers ignoreNegMatchers
                        (Path.join dirPath (fst e)) (dirent_type_of (snd e)) d /\
             Forall (fun name => good_name Path.Win32 name = true)
                    (Path.join dirPath (fst e)) /\
             good_node Path.Win32 (snd e) = true).
  { intros [name child] He. cbn [fst snd]. destruct (G _ _ He) as [Gn Gc].
    assert (Gp : Forall (fun name => good_name Path.Win32 name = true)
                        (Path.join dirPath name)).
    { unfold Path.join. apply Forall_app. split; [exact Gdir|].
      repeat constructor. exact Gn. }
    split; [|split; [exact Gp | exact Gc]].
    unfold descends. rewrite ignored_platform_independent; [reflexivity|exact Gp|].
    unfold Path.join. destruct dirPath; discriminate. }
  cbn [listed walk_trace]. destruct (depth_gt d (maxDepth options));
    [split; reflexivity|].
  split; f_equal; [|f_equal]; apply flat_map_ext_in; intros e He;
    destruct (Hsub e He) as (Hd & Gp & Gc); rewrite Hd;
    destruct (descends Path.Posix options ignoreMatchers ignoreNegMatchers
                       (Path.join dirPath (fst e)) (dirent_type_of (snd e)) d);
    try reflexivity; apply (IH e He Gc); exact Gp.
Qed.

End Platforms.

(** In a tree whose names are well formed on Windows, [find] reads the
    same entries on both platforms, and its relative results on Windows are
    its results on a POSIX host with the slashes turned into backslashes,
    one for one. *)
Theorem find_platform_correspondence w patterns options paths_posix paths_win32 :
  good_world Path.Win32 w = true ->
  absolute options = false ->
  find Path.Posix w patterns options = Resolved paths_posix ->
  find Path.Win32 w patterns options = Resolved paths_win32 ->
  paths_win32 = map (to_platform Path.Win32) paths_posix /\
  find_trace Path.Win32 w patterns options
  = find_trace Path.Posix w patterns options.
Proof.
  intros Hgood Habs. rewrite !find_resolves. intros [= <-] [= <-].
  destruct (walk_platform_independent options (find_deny w options)
              (find_override w options) (Node DT_Dir (root w)) Hgood [] 0%Z
              (Forall_nil _)) as [Hl Ht].
  split; [|rewrite !find_trace_walk; exact Ht].
  unfold find_results, walk_results. rewrite Hl.
  assert (Hall : forall e,
             In e (listed Path.Posix options (find_deny w options)
                          (find_override w options) (Node DT_Dir (root w)) [] 0%Z) ->
             Forall (fun name => good_name Path.Win32 name = true) (fst (fst e))
             /\ fst (fst e) <> []).
  { intros [[p t] d] He. cbn [fst]. rewrite <- Hl in He.
    exact (listed_good Path.Win32 w options Hgood p t d He). }
  revert Hall.
  generalize (listed Path.Posix options (find_deny w options)
                     (find_override w options) (Node DT_Dir (root w)) [] 0%Z).
  intro l. induction l as [|[[p t] d] l IH]; intro Hall; [reflexivity|].
  cbn [flat_map fst snd]. rewrite map_app, <- IH
    by (intros e He; apply Hall; right; exact He).
  f_equal. destruct (Hall _ (or_introl eq_refl)) as [G N]. cbn [fst] in G, N.
  unfold collected, matched, pushed_for, pushed_path. rewrite Habs.
  rewrite (ignored_platform_independent (find_deny w options)
             (find_override w options) p G N).
  destruct (relPathUnix_good_names Path.Win32 p G N) as [U R].
  destruct (relPathUnix_good_names Path.Posix p
              (Forall_impl _ good_name_posix G) N) as [U' R'].
  rewrite U, U', R.
  destruct (ignored Path.Posix _ _ p); [reflexivity|].
  destruct (eligible options t && passes_extension_filter options t (last p [])
            && some (matchers_of patterns) (JsString.join [slash] p));
    reflexivity.
Qed.

Lemma find_platform_correspondence_witness :
  good_world Path.Win32 tree_ts = true /\
  absolute (defaults posix_base) = false /\
  find Path.Posix tree_ts (One (lit "**/*.ts")) (defaults posix_base)
  = Resolved [lit "a.ts"; lit "sub/c.ts"] /\
  find Path.Win32 tree_ts (One (lit "**/*.ts")) (defaults posix_base)
  = Resolved [lit "a.ts"; lit "sub" ++ [backslash] ++ lit "c.ts"] /\
  [lit "a.ts"; lit "sub" ++ [backslash] ++ lit "c.ts"]
  = map (to_platform Path.Win32) [lit "a.ts"; lit "sub/c.ts"].
Proof.
  split; [reflexivity|]. split; [reflexivity|].
  split; [reflexivity|]. split; [reflexivity|].
  exact (proj1 (find_platform_correspondence tree_ts (One (lit "**/*.ts"))
                  (defaults posix_base) [lit "a.ts"; lit "sub/c.ts"]
                  [lit "a.ts"; lit "sub" ++ [backslash] ++ lit "c.ts"]
                  eq_refl eq_refl eq_refl eq_refl)).
Defined.

(** ** No path twice *)

Lemma distinct_NoDup names : distinct names = true -> NoDup names.
Proof.
  induction names as [|x rest IH]; cbn [distinct]; intro H; [constructor|].
  apply andb_prop in H as [Hx Hr]. constructor; [|apply IH; exact Hr].
  intro Hin. apply negb_true_iff in Hx.
  assert (T : existsb (str_eqb x) rest = true); [|congruence].
  apply existsb_exists. exists x. split; [exact Hin | apply str_eqb_eq; reflexivity].
Qed.

Lemma NoDup_flat_map_keyed {A K B} (k : A -> K) (g : K -> B) (f : A -> list B) l :
  NoDup (map k l) ->
  (forall e, In e l -> f e = [] \/ f e = [g (k e)]) ->
  (forall e1 e2, In e1 l -> In e2 l -> g (k e1) = g (k e2) -> k e1 = k e2) ->
  NoDup (flat_map f l).
Proof.
  induction l as [|e l IH]; intros Hk Hf Hinj; [constructor|].
  cbn [map flat_map] in *. inversion Hk as [|? ? Hnot Hk']; subst.
  assert (Hrest : NoDup (flat_map f l)).
  { apply IH; [exact Hk' | |].
    - intros e0 He0. apply Hf. right. exact He0.
    - intros e1 e2 H1 H2. apply Hinj; right; assumption. }
  destruct (Hf e (or_introl eq_refl)) as [E|E]; rewrite E; [exact Hrest|].
  cbn [app]. constructor; [|exact Hrest].
  intro Hin. apply in_flat_map in Hin as (e' & He' & Hin).
  destruct (Hf e' (or_intror He')) as [E'|E']; rewrite E' in Hin;
    [destruct Hin|].
  destruct Hin as [Hg|[]].
  apply Hnot. rewrite (Hinj e e' (or_introl eq_refl) (or_intror He') (eq_sym Hg)).
  apply in_map. exact He'.
Qed.

Section Paths.

Variable pf : Path.platform.
Variable options : GlobOptions.
Variables ignoreMatchers ignoreNegMatchers : list RegExp.re.

Local Abbreviation listed' := (listed pf options ignoreMatchers ignoreNegMatchers).
Local Abbreviation descends' := (descends pf options ignoreMatchers ignoreNegMatchers).

Lemma own_paths_NoDup dirPath (names : list str) :
  NoDup names -> NoDup (map (fun name => Path.join dirPath name) names).
Proof.
  induction 1 as [|x rest Hx _ IH]; cbn [map]; constructor; [|exact IH].
  intro Hin. apply in_map_iff in Hin as (y & E & Hy).
  unfold Path.join in E. apply app_inv_head in E. injection E as ->.
  exact (Hx Hy).
Qed.

(** The paths read below the entries of a directory go through one of
    them and are longer. *)
Lemma sub_path_shape dirPath d (entries : list (str * node)) x :
  In x (map (fun e => fst (fst e))
            (flat_map (fun e =>
                         if descends' (Path.join dirPath (fst e))
                                      (dirent_type_of (snd e)) d
                         then listed' (snd e) (Path.join dirPath (fst e)) (d + 1)%Z
                         else []) entries)) ->
  exists e rel, In e entries /\ x = dirPath ++ fst e :: rel /\ rel <> [].
Proof.
  intro H. apply in_map_iff in H as ([[p t] d'] & <- & H). cbn [fst].
  apply in_flat_map_if in H as (e & He & _ & Hl).
  apply listed_reaches in Hl as (rel & child & -> & Hr & _).
  exists e, rel. split; [exact He|]. unfold Path.join.
  rewrite <- app_assoc. split; [reflexivity|].
  pose proof (reaches_length _ _ _ Hr). destruct rel; [cbn in *; lia|discriminate].
Qed.

(** In a tree with distinct names, no path is read twice. *)
Lemma listed_paths_NoDup n :
  good_node pf n = true ->
  forall dirPath d,
    NoDup (map (fun e => fst (fst e)) (listed' n dirPath d)).
Proof.
  induction n as [t0|t0 entries IH] using node_induction; intros G dirPath d.
  - cbn [listed]. destruct (depth_gt d (maxDepth options)); constructor.
  - apply good_node_entries in G as [D G].
    cbn [listed]. destruct (depth_gt d (maxDepth options)); [constructor|].
    rewrite map_app. apply NoDup_app.
    + rewrite map_map. cbn [fst].
      rewrite <- (map_map fst (fun name => Path.join dirPath name)).
      apply own_paths_NoDup. apply distinct_NoDup. exact D.
    + apply distinct_NoDup in D. clear - IH D G.
      induction entries as [|e rest IHrest]; [constructor|].
      inversion IH as [|? ? He Hrest]; subst.
      cbn [map fst] in D. inversion D as [|? ? Hfresh D']; subst.
      cbn [flat_map]. rewrite map_app. apply NoDup_app.
      * destruct (descends' (Path.join dirPath (fst e)) (dirent_type_of (snd e)) d);
          [|constructor].
        apply He. destruct e as [name child]. exact (proj2 (G _ _ (or_introl eq_refl))).
      * apply IHrest; auto. intros name child Hin. apply G. right. exact Hin.
      * intros x Hx Hy. apply sub_path_shape in Hy as (e' & rel' & He' & -> & _).
        assert (Hx' : In (dirPath ++ fst e' :: rel')
                         (map (fun e0 => fst (fst e0))
                              (flat_map (fun e0 =>
                                 if descends' (Path.join dirPath (fst e0))
                                              (dirent_type_of (snd e0)) d
                                 then listed' (snd e0) (Path.join dirPath (fst e0))
                                              (d + 1)%Z
                                 else []) [e]))).
        { cbn [flat_map]. rewrite app_nil_r. exact Hx. }
        apply sub_path_shape in Hx' as (e0 & rel & [<-|[]] & E & _).
        apply app_inv_head in E. injection E as E _.
        apply Hfresh. rewrite <- E. apply in_map. exact He'.
    + intros x Hx Hy. apply sub_path_shape in Hy as (e' & rel' & _ & -> & Hne).
      rewrite map_map in Hx. apply in_map_iff in Hx as (e & E & _).
      cbn [fst] in E. unfold Path.join in E. apply app_inv_head in E.
      injection E as _ E. congruence.
Qed.

End Paths.

(** In a tree with well-formed names, [find] returns no path twice. *)
Theorem find_no_duplicates pf w patterns options paths :
  good_world pf w = true ->
  find pf w patterns options = Resolved paths ->
  NoDup paths.
Proof.
  intros Hgood. rewrite find_resolves. intros [= <-].
  unfold find_results, walk_results.
  apply (NoDup_flat_map_keyed (fun e => fst (fst e)) (find_pushed_for pf options)).
  - apply listed_paths_NoDup. exact Hgood.
  - intros [[p t] d] _. cbn [fst snd].
    fold (find_collected pf w patterns options p t).
    destruct (find_collected pf w patterns options p t) as [x|] eqn:E;
      [|left; reflexivity].
    apply collected_some in E as (_ & _ & _ & _ & ->). right. reflexivity.
  - intros [[p t] d] [[q t'] d'] Hp Hq E. cbn [fst] in *.
    symmetry.
    exact (proj1 (pushed_unique pf w options Hgood p t d q t' d' Hp Hq
                    (eq_sym E))).
Qed.

Lemma find_no_duplicates_witness :
  good_world Path.Posix tree_ts = true /\
  find Path.Posix tree_ts (Many [lit "**/*.ts"; lit "*.ts"; lit "a.*"])
       (defaults posix_base)
  = Resolved [lit "a.ts"; lit "sub/c.ts"] /\
  NoDup [lit "a.ts"; lit "sub/c.ts"].
Proof.
  split; [reflexivity|]. split; [reflexivity|].
  exact (find_no_duplicates Path.Posix tree_ts
           (Many [lit "**/*.ts"; lit "*.ts"; lit "a.*"]) (defaults posix_base)
           [lit "a.ts"; lit "sub/c.ts"] eq_refl eq_refl).
Defined.

(** ** What an unbounded walk without ignore patterns reads *)

Section Unbounded.

Variable pf : Path.platform.
Variable options : GlobOptions.
Hypothesis Hmax : maxDepth options = Infinity.

Lemma descends_unbounded p t d :
  descends pf options [] [] p t d = true <-> t = DT_Dir.
Proof.
  unfold descends, ignored, isIgnored. rewrite Hmax. cbn.
  destruct t; split; intro H; congruence.
Qed.

Lemma listed_descent n :
  forall dirPath d p t d',
    In (p, t, d') (listed pf options [] [] n dirPath d) ->
    exists rel child,
      p = dirPath ++ rel /\ descent n rel child /\ t = dirent_type_of child /\
      d' = (d + Z.of_nat (length rel) - 1)%Z.
Proof.
  induction n as [t0|t0 entries IH] using node_induction;
    intros dirPath d p t d' H; apply in_listed in H; cbn [listing_of] in H.
  - destruct H as (_ & es & [=] & _).
  - rewrite Forall_forall in IH.
    destruct H as (_ & es & [= <-] & [(e & He & [= -> -> ->])|(e & He & C & Hx)]).
    + destruct e as [name child]. exists [name], child. cbn [fst snd length].
      repeat split; [constructor; exact He | lia].
    + apply descends_unbounded in C.
      apply (IH e He) in Hx as (rel & child & -> & Hr & -> & ->).
      destruct e as [name [tc lc]]. cbn [fst snd dirent_type_of] in *. subst tc.
      exists (name :: rel), child. unfold Path.join.
      rewrite <- app_assoc. cbn [app length]. repeat split.
      * eapply descent_below; eauto.
      * lia.
Qed.

Lemma descent_listed n rel child :
  descent n rel child ->
  forall dirPath d,
    In (dirPath ++ rel, dirent_type_of child, (d + Z.of_nat (length rel) - 1)%Z)
       (listed pf options [] [] n dirPath d).
Proof.
  induction 1 as [t entries name child Hin|t entries name listing rel n' Hin _ IH];
    intros dirPath d; apply in_listed; cbn [listing_of];
    (split; [rewrite Hmax; reflexivity|]); exists entries;
    (split; [reflexivity|]).
  - left. exists (name, child). cbn [fst snd length]. split; [exact Hin|].
    unfold Path.join. repeat f_equal. lia.
  - right. exists (name, Node DT_Dir listing). cbn [fst snd dirent_type_of].
    split; [exact Hin|]. split; [apply descends_unbounded; reflexivity|].
    specialize (IH (Path.join dirPath name) (d + 1)%Z).
    unfold Path.join in *. rewrite <- app_assoc in IH. cbn [app length] in *.
    replace (d + Z.of_nat (S (length rel)) - 1)%Z
      with (d + 1 + Z.of_nat (length rel) - 1)%Z by lia.
    exact IH.
Qed.

End Unbounded.

(** Without a depth limit and without ignore patterns, [find] reads
    exactly the entries that can be reached from the base directory through
    entries that are directories; every file among them that a pattern
    matches is in the results (with the default [type] and extension
    option). *)
Theorem find_unbounded_complete pf w patterns options paths :
  maxDepth options = Infinity ->
  ignore options = Many [] ->
  useGitignore options = false ->
  find pf w patterns options = Resolved paths ->
  (forall p t d,
      In (EvDirent p t d) (find_trace pf w patterns options) <->
      exists child,
        descent (Node DT_Dir (root w)) p child /\ t = dirent_type_of child /\
        d = (Z.of_nat (length p) - 1)%Z) /\
  (forall p child,
      descent (Node DT_Dir (root w)) p child ->
      dirent_type_of child = DT_File ->
      type options = Files ->
      matchFilesWithoutExtensions options = true ->
      find_matched pf patterns p = true ->
      In (find_pushed_for pf options p) paths).
Proof.
  intros Hmax Hign Hgit. rewrite find_resolves. intros [= <-].
  assert (Hd : find_deny w options = [] /\ find_override w options = []).
  { unfold find_deny, find_override, ignoreList_of. rewrite Hign, Hgit.
    split; reflexivity. }
  destruct Hd as [Hdeny Hover].
  assert (Hl : forall p t d,
             In (p, t, d) (find_listed pf w options) <->
             exists child,
               descent (Node DT_Dir (root w)) p child /\ t = dirent_type_of child /\
               d = (Z.of_nat (length p) - 1)%Z).
  { intros p t d. unfold find_listed. rewrite Hdeny, Hover. split.
    - intro H. apply (listed_descent pf options Hmax) in H
        as (rel & child & -> & Hr & -> & ->).
      exists child. cbn [app]. repeat split; auto.
    - intros (child & Hr & -> & ->).
      exact (descent_listed pf options Hmax _ _ _ Hr [] 0%Z). }
  split.
  - intros p t d. rewrite find_dirent_listed. apply Hl.
  - intros p child Hr Hfile Htype Hext Hm. apply in_find_results.
    exists p, DT_File, (Z.of_nat (length p) - 1)%Z. split.
    + apply Hl. exists child. auto.
    + apply collected_some. unfold find_ignored, ignored, isIgnored.
      rewrite Hdeny, Hover. unfold eligible, passes_extension_filter.
      rewrite Htype, Hext. cbn. auto.
Qed.

Lemma find_unbounded_complete_witness :
  maxDepth (defaults posix_base) = Infinity /\
  ignore (defaults posix_base) = Many [] /\
  useGitignore (defaults posix_base) = false /\
  find Path.Posix tree_ts (One (lit "**/*.ts")) (defaults posix_base)
  = Resolved [lit "a.ts"; lit "sub/c.ts"] /\
  forall p t d,
    In (EvDirent p t d)
       (find_trace Path.Posix tree_ts (One (lit "**/*.ts")) (defaults posix_base)) <->
    exists child,
      descent (Node DT_Dir (root tree_ts)) p child /\ t = dirent_type_of child /\
      d = (Z.of_nat (length p) - 1)%Z.
Proof.
  split; [reflexivity|]. split; [reflexivity|]. split; [reflexivity|].
  split; [reflexivity|].
  exact (proj1 (find_unbounded_complete Path.Posix tree_ts (One (lit "**/*.ts"))
                  (defaults posix_base) [lit "a.ts"; lit "sub/c.ts"]
                  eq_refl eq_refl eq_refl eq_refl)).
Defined.

(** ** Below an ignored directory *)

(** In a tree with well-formed names, nothing below an ignored entry is
    ever returned, whatever the patterns and the override patterns are: an
    override cannot bring back what lies in an ignored directory. *)
Theorem below_ignored_never_collected pf w patterns options paths p q :
  good_world pf w = true ->
  find pf w patterns options = Resolved paths ->
  p <> [] -> q <> [] ->
  Forall (fun name => good_name pf name = true) (p ++ q) ->
  find_ignored pf w options p = true ->
  ~ In (find_pushed_for pf options (p ++ q)) paths.
Proof.
  intros Hgood Hfind Hp Hq Hnames Hign Hin.
  destruct (ignored_not_read pf w patterns options paths p Hfind Hp Hign)
    as (_ & _ & Hbelow).
  rewrite find_resolves in Hfind. injection Hfind as <-.
  apply in_find_results in Hin as (s & t & d & Hl & Hc).
  apply collected_some in Hc as (_ & _ & _ & _ & E).
  destruct (listed_good pf w options Hgood _ _ _ Hl) as [G N].
  apply pushed_path_inj in E. apply relative_inj in E; auto.
  - subst s. apply (Hbelow q t d Hq).
    apply (find_dirent_listed pf w patterns options). exact Hl.
  - destruct p; [congruence | discriminate].
Qed.

Lemma below_ignored_never_collected_witness :
  good_world Path.Posix tree_gitignore = true /\
  find Path.Posix tree_gitignore (One (lit "**/*.ts"))
       (with_ignore [lit "build"; lit "!build/out.ts"] (defaults posix_base))
  = Resolved [lit "a.ts"] /\
  [lit "build"] <> [] /\ [lit "out.ts"] <> [] /\
  Forall (fun name => good_name Path.Posix name = true)
         ([lit "build"] ++ [lit "out.ts"]) /\
  find_ignored Path.Posix tree_gitignore
               (with_ignore [lit "build"; lit "!build/out.ts"] (defaults posix_base))
               [lit "build"] = true /\
  ~ In (find_pushed_for Path.Posix
          (with_ignore [lit "build"; lit "!build/out.ts"] (defaults posix_base))
          ([lit "build"] ++ [lit "out.ts"]))
       [lit "a.ts"].
Proof.
  assert (G : Forall (fun name => good_name Path.Posix name = true)
                     ([lit "build"] ++ [lit "out.ts"])).
  { repeat constructor. }
  assert (N1 : [lit "build"] <> []) by discriminate.
  assert (N2 : [lit "out.ts"] <> []) by discriminate.
  split; [reflexivity|]. split; [reflexivity|].
  split; [exact N1|]. split; [exact N2|]. split; [exact G|].
  split; [reflexivity|].
  exact (below_ignored_never_collected Path.Posix tree_gitignore
           (One (lit "**/*.ts"))
           (with_ignore [lit "build"; lit "!build/out.ts"] (defaults posix_base))
           [lit "a.ts"] [lit "build"] [lit "out.ts"]
           eq_refl eq_refl N1 N2 G eq_refl).
Defined.
